(** * fst: ranking of file entries and temporary-directory lifecycle

    A shallow embedding of the Go package [fst]:

    - [file_rank.go]: the rank primitives [ByName], [ByDir], [BySize],
      [ByTime], [ByPerm], the content comparator [ByContent] and the
      composition [Less];
    - the temporary-directory file: [TempInitDir], [TempInitChdir],
      [TempCloneDir], [TempCloneChdir], [TempCreateChdir].

    What belongs to the Go standard library ([os], [bufio], [time],
    [path/filepath], [testing], [log]) is modelled by the documented
    behaviour the package relies on; every such definition says so. *)

From Stdlib Require Import List ZArith Lia Bool String Ascii Permutation.
From Stdlib Require Strings.Byte OrderedTypeEx.
Import ListNotations.

Local Open Scope Z_scope.

(* ================================================================== *)
(** * file_rank.go *)
(* ================================================================== *)

(** ** Standard-library data used by the comparators *)

(** [os.FileMode] is a [uint32]; the permission bits are the low nine
    ([ModePerm = 0777]) and the type bits are gathered in [ModeType]. *)
Definition FileMode := Z.

Definition ModeDir        : FileMode := Z.shiftl 1 31.
Definition ModeSymlink    : FileMode := Z.shiftl 1 27.
Definition ModeDevice     : FileMode := Z.shiftl 1 26.
Definition ModeNamedPipe  : FileMode := Z.shiftl 1 25.
Definition ModeSocket     : FileMode := Z.shiftl 1 24.
Definition ModeCharDevice : FileMode := Z.shiftl 1 21.
Definition ModeIrregular  : FileMode := Z.shiftl 1 19.

Definition ModeType : FileMode :=
  Z.lor ModeDir (Z.lor ModeSymlink (Z.lor ModeNamedPipe
    (Z.lor ModeSocket (Z.lor ModeDevice (Z.lor ModeCharDevice ModeIrregular))))).

Definition ModePerm : FileMode := 511. (* 0777 *)

(** [m.IsRegular()] is [m&ModeType == 0]. *)
Definition IsRegular (m : FileMode) : bool := Z.land m ModeType =? 0.

(** [m.Perm()] is [m & ModePerm]. *)
Definition Perm (m : FileMode) : FileMode := Z.land m ModePerm.

(** [time.Time] is documented as an instant in time with nanosecond
    precision and [time.Duration] as a count of nanoseconds; an instant is
    the number of nanoseconds from a fixed origin.  [t.Add(d)] is the
    instant [t+d] and [t.Before(u)] tells whether [t] is before [u].  The
    saturation of [Add] at the ends of the representable range (several
    hundred billion years away from any file time) is outside this model. *)
Definition Time := Z.



(** Modelled from the spec: [FileInfoPath], the descriptor of a file
    entry, is declared in a file of the package that is not part of the
    sources at hand.  It couples an [os.FileInfo] (base name, byte size,
    mode bits, modification time, directory flag) with the path of the
    entry; the comparators only call these accessors. *)
Record FileInfoPath := {
  Name    : string;
  Size    : Z;          (* int64 *)
  Mode    : FileMode;
  ModTime : Time;
  IsDir   : bool;
  Path    : string
}.

(** ** The rank primitives *)

(** [left.Name() < right.Name()]: Go compares strings byte by byte. *)
Definition ByName (left right : FileInfoPath) : bool :=
  String.ltb (Name left) (Name right).

Definition ByDir (left right : FileInfoPath) : bool :=
  IsDir left && negb (IsDir right).

Definition BySize (left right : FileInfoPath) : bool :=
  IsRegular (Mode left) &&
  IsRegular (Mode right) &&
  (Size left <? Size right).


Definition ByPerm (left right : FileInfoPath) : bool :=
  Perm (Mode left) <? Perm (Mode right).

(** ** Rank functions that may abort the test *)

(** Errors of the standard library: [io.EOF], [filepath.SkipDir] and the
    errors of the operating system, told apart by a number. *)
Inductive error : Type :=
| EOF
| SkipDir
| Errno (code : nat).

(** A call of a rank function either returns its boolean or never returns
    because [t.Fatal] stopped the test; [R] is what the injected [t]
    records for the report. *)
Inductive result (R : Type) : Type :=
| Done (b : bool)
| Aborted (report : R).
Arguments Done {R} b.
Arguments Aborted {R} report.

Definition FileRank (R : Type) := FileInfoPath -> FileInfoPath -> result R.

(** The five primitives never abort. *)
Definition lift {R} (f : FileInfoPath -> FileInfoPath -> bool) : FileRank R :=
  fun left right => Done (f left right).

(** A [bufio.Reader] over an open file, seen as the reads it will answer:
    the bytes it delivers one by one, ended by the error of the first read
    that fails ([io.EOF] at the end of the file, or any other error). *)
Inductive Reader : Type :=
| Fail (err : error)
| Next (b : Byte.byte) (rest : Reader).

Definition ReadByte (r : Reader) : (Byte.byte * Reader) + error :=
  match r with
  | Fail err => inr err
  | Next b rest => inl (b, rest)
  end.

(** The reader of a file that holds [content] and reads without error. *)
Fixpoint reader_of (content : list Byte.byte) : Reader :=
  match content with
  | [] => Fail EOF
  | b :: content' => Next b (reader_of content')
  end.

(** The reader that delivers [content] and then fails with [err]. *)
Fixpoint reader_until (content : list Byte.byte) (err : error) : Reader :=
  match content with
  | [] => Fail err
  | b :: content' => Next b (reader_until content' err)
  end.

(** The bytes a reader delivers before its first failing read, and the
    error of that read. *)
Fixpoint delivered (r : Reader) : list Byte.byte :=
  match r with
  | Fail _ => []
  | Next b rest => b :: delivered rest
  end.

Fixpoint ending (r : Reader) : error :=
  match r with
  | Fail err => err
  | Next _ rest => ending rest
  end.

Definition byte_lt (a b : Byte.byte) : bool :=
  (Byte.to_N a <? Byte.to_N b)%N.

(** The [for] loop of [ByContent] (lines 83-103): one iteration reads the
    right reader, then the left one.  The read of the right reader is
    written as the match that [ReadByte] performs, which is what lets the
    recursion follow the right reader ([compare_loop_eq] states the loop
    with [ReadByte] on both sides). *)
Fixpoint compare_loop (leftBuf rightBuf : Reader) {struct rightBuf} : bool :=
  match rightBuf with
  | Fail _ => false
  | Next rByte rightBuf' =>
      match ReadByte leftBuf with
      | inr _ => true
      | inl (lByte, leftBuf') =>
          if Byte.eqb lByte rByte then compare_loop leftBuf' rightBuf'
          else if byte_lt lByte rByte then true
          else false
      end
  end.

Section Comparators.

(** The report type of the injected [*testing.T] and its [Fatal]. *)
Context {R : Type}.
Variable t_Fatal : error -> R.

(** [os.Open] followed by [bufio.NewReader]: the environment answers
    with a reader or with an error. *)
Variable Open : string -> Reader + error.

Definition ByContent : FileRank R :=
  fun left right =>
    match Open (Path left) with
    | inr err => Aborted (t_Fatal err)
    | inl leftBuf =>
        match Open (Path right) with
        | inr err => Aborted (t_Fatal err)
        | inl rightBuf => Done (compare_loop leftBuf rightBuf)
        end
    end.

(** [Less] (lines 108-115). *)
Fixpoint Less (left right : FileInfoPath) (cmps : list (FileRank R)) : result R :=
  match cmps with
  | [] => Done false
  | less :: cmps' =>
      match less left right with
      | Done true => Done true
      | Done false => Less left right cmps'
      | Aborted r => Aborted r
      end
  end.

End Comparators.

(* ================================================================== *)
(** * The temporary-directory lifecycle *)
(* ================================================================== *)

(** ** The file tree *)

(** A file tree: a file, or a directory with its entries.  Each carries
    its permission bits.  The entries of a directory are kept in the
    lexical order of their names, the order in which [filepath.Walk]
    visits them. *)
#[local] Unset Elimination Schemes.
Inductive node : Type :=
| File (perm : FileMode)
| Dir (perm : FileMode) (entries : list (string * node)).
#[local] Set Elimination Schemes.

Definition is_dir (t : node) : bool :=
  match t with
  | File _ => false
  | Dir _ _ => true
  end.

Definition set_perm (perm : FileMode) (t : node) : node :=
  match t with
  | File _ => File perm
  | Dir _ entries => Dir perm entries
  end.

(** Paths are Go strings; the tree is addressed by the list of their
    components. *)
Definition separator : ascii := "/"%char.

Fixpoint components_from (cur : string) (s : string) : list string :=
  match s with
  | EmptyString => if String.eqb cur "" then [] else [cur]
  | String c s' =>
      if Ascii.eqb c separator
      then (if String.eqb cur "" then components_from "" s'
            else cur :: components_from "" s')
      else components_from (cur ++ String c "") s'
  end.

Definition components (s : string) : list string := components_from "" s.

Definition is_abs (s : string) : bool :=
  match s with
  | String c _ => Ascii.eqb c separator
  | EmptyString => false
  end.

(** [filepath.Join] of a directory and a name. *)
Definition Join (dir name : string) : string :=
  if String.eqb dir "" then name else (dir ++ "/" ++ name)%string.

(** A relative path is taken from the working directory. *)
Definition absolute (cwd path : string) : string :=
  if is_abs path then path else Join cwd path.

Definition resolve (cwd path : string) : list string :=
  components (absolute cwd path).

Fixpoint find_entry (name : string) (entries : list (string * node)) : option node :=
  match entries with
  | [] => None
  | (k, c) :: entries' =>
      if String.eqb k name then Some c else find_entry name entries'
  end.

Fixpoint lookup (p : list string) (t : node) {struct p} : option node :=
  match p with
  | [] => Some t
  | name :: p' =>
      match t with
      | File _ => None
      | Dir _ entries =>
          match find_entry name entries with
          | Some c => lookup p' c
          | None => None
          end
      end
  end.

(** [alter_entries name g] rewrites the entries called [name] with [g],
    which drops an entry by answering [None]. *)
Fixpoint alter_entries (name : string) (g : node -> option node)
    (entries : list (string * node)) : list (string * node) :=
  match entries with
  | [] => []
  | (k, c) :: entries' =>
      if String.eqb k name
      then match g c with
           | Some c' => (k, c') :: alter_entries name g entries'
           | None => alter_entries name g entries'
           end
      else (k, c) :: alter_entries name g entries'
  end.

Fixpoint alter (f : node -> option node) (p : list string) (t : node)
    {struct p} : option node :=
  match p with
  | [] => f t
  | name :: p' =>
      match t with
      | File _ => Some t
      | Dir perm entries => Some (Dir perm (alter_entries name (alter f p') entries))
      end
  end.

(** The root of the file system itself is never dropped. *)
Definition alter_root (f : node -> option node) (p : list string) (t : node) : node :=
  match alter f p t with
  | Some t' => t'
  | None => t
  end.

Definition tree_chmod (p : list string) (perm : FileMode) : node -> node :=
  alter_root (fun c => Some (set_perm perm c)) p.

Definition tree_remove (p : list string) : node -> node :=
  alter_root (fun _ => None) p.

Fixpoint insert_entry (name : string) (c : node) (entries : list (string * node))
    : list (string * node) :=
  match entries with
  | [] => [(name, c)]
  | (k, c') :: entries' =>
      if String.eqb k name then (k, c') :: entries'
      else if String.ltb name k then (name, c) :: (k, c') :: entries'
      else (k, c') :: insert_entry name c entries'
  end.

Fixpoint tree_mkdir (p : list string) (perm : FileMode) (t : node) {struct p} : node :=
  match p with
  | [] => t
  | name :: p' =>
      match t with
      | File _ => t
      | Dir m entries =>
          match p' with
          | [] => Dir m (insert_entry name (Dir perm []) entries)
          | _ :: _ =>
              Dir m (alter_entries name (fun c => Some (tree_mkdir p' perm c)) entries)
          end
      end
  end.

(** ** The process and the operating system *)

(** The calls the package makes into the operating system. *)
Inductive syscall : Type :=
| SysTempDir
| SysGetwd
| SysChdir (dir : string)
| SysChmod (name : string) (perm : FileMode)
| SysRemove (name : string)
| SysRemoveAll (path : string)
| SysLstat (name : string)
| SysReadDir (name : string).

(** What a process sees of the world: the file tree, its working
    directory, and the calls it has issued so far, oldest first ([Lstat]
    and [ReadDir], which [filepath.Walk] issues on its own and which
    change nothing, are not recorded). *)
Record World : Type := {
  fs  : node;
  cwd : string;
  log : list syscall
}.

Definition issue (s : syscall) (w : World) : World :=
  {| fs := fs w; cwd := cwd w; log := log w ++ [s] |}.

Definition with_fs (t : node) (w : World) : World :=
  {| fs := t; cwd := cwd w; log := log w |}.

Definition with_cwd (d : string) (w : World) : World :=
  {| fs := fs w; cwd := d; log := log w |}.

(** A computation returns a value, or ends the process ([log.Fatalln]
    exits with status 1), or panics (a method called on a nil
    interface). *)
Inductive outcome (A : Type) : Type :=
| Ret (a : A) (w : World)
| Exit (w : World)
| Panic (w : World).
Arguments Ret {A} a w.
Arguments Exit {A} w.
Arguments Panic {A} w.

Definition M (A : Type) : Type := World -> outcome A.

Definition ret {A} (a : A) : M A := fun w => Ret a w.

Definition bind {A B} (m : M A) (k : A -> M B) : M B :=
  fun w =>
    match m w with
    | Ret a w' => k a w'
    | Exit w' => Exit w'
    | Panic w' => Panic w'
    end.

Notation "x <- m ;; k" := (bind m (fun x => k))
  (at level 61, m at next level, right associativity).
Notation "' pat <- m ;; k" := (bind m (fun x => match x with pat => k end))
  (at level 61, pat pattern, m at next level, right associativity).

(** The world in which a computation ended, however it ended. *)
Definition final {A} (o : outcome A) : World :=
  match o with
  | Ret _ w => w
  | Exit w => w
  | Panic w => w
  end.

Definition log_Fatalln {A} (e : error) : M A := fun w => Exit w.

(** The part of [os.FileInfo] that [Lstat] answers here. *)
Record FileInfo : Type := {
  fi_IsDir : bool;
  fi_Perm  : FileMode
}.

Definition info_of (t : node) : FileInfo :=
  match t with
  | File perm => {| fi_IsDir := false; fi_Perm := perm |}
  | Dir perm _ => {| fi_IsDir := true; fi_Perm := perm |}
  end.

Definition is_SkipDir (e : error) : bool :=
  match e with
  | SkipDir => true
  | _ => false
  end.

Section Lifecycle.

(** The environment: which calls fail, and with which error number, in
    which world (the world holds the whole history of calls, so that any
    pattern of failures can be described); and the name that
    [ioutil.TempDir] picks for the directory it creates. *)
Variable fault : World -> syscall -> option nat.
Variable temp_name : World -> string.

(** A call is recorded, then fails if the environment says so, else has
    its effect: [Chmod] sets the permission bits, [Remove] and [RemoveAll]
    leave nothing at the path, [Chdir] moves the working directory. *)
Definition os_call (s : syscall) (effect : World -> World) : M (option error) :=
  fun w =>
    match fault w s with
    | Some code => Ret (Some (Errno code)) (issue s w)
    | None => Ret None (effect (issue s w))
    end.

Definition os_Chmod (name : string) (perm : FileMode) : M (option error) :=
  os_call (SysChmod name perm)
    (fun w => with_fs (tree_chmod (resolve (cwd w) name) perm (fs w)) w).

Definition os_Remove (name : string) : M (option error) :=
  os_call (SysRemove name)
    (fun w => with_fs (tree_remove (resolve (cwd w) name) (fs w)) w).

Definition os_RemoveAll (path : string) : M (option error) :=
  os_call (SysRemoveAll path)
    (fun w => with_fs (tree_remove (resolve (cwd w) path) (fs w)) w).

Definition os_Chdir (dir : string) : M (option error) :=
  os_call (SysChdir dir) (fun w => with_cwd (absolute (cwd w) dir) w).

Definition os_Getwd : M (string * option error) :=
  fun w =>
    match fault w SysGetwd with
    | Some code => Ret (""%string, Some (Errno code)) (issue SysGetwd w)
    | None => Ret (cwd w, None) (issue SysGetwd w)
    end.

(** [ioutil.TempDir("", "")]: a new directory with permission 0700. *)
Definition ioutil_TempDir : M (string * option error) :=
  fun w =>
    match fault w SysTempDir with
    | Some code => Ret (""%string, Some (Errno code)) (issue SysTempDir w)
    | None =>
        let name := temp_name w in
        Ret (name, None)
            (with_fs (tree_mkdir (resolve (cwd w) name) 448 (fs w)) (issue SysTempDir w))
    end.

(** ** [filepath.Walk]

    The walk function receives the path, the [os.FileInfo] ([None] for a
    nil one) and the error met on the way to the entry; [S] is the state of
    the variables the closure captures. *)
Definition WalkFunc (S : Type) : Type :=
  string -> option FileInfo -> option error -> S -> M (option error * S).

(** [filepath.walk], as the standard library has it: the walk function is
    called on a file; on a directory it is called once the names of the
    directory were read, with the error of that read, and then, unless
    either failed, the entries are visited in lexical order, each after an
    [Lstat] whose error goes to the walk function with a nil
    [os.FileInfo].  An error of the walk function stops the walk, but for
    [SkipDir] on a directory.

    The tree under the root is the one found when the walk starts: the
    names of a directory are read before any of its entries is visited,
    and the walk function of the package touches nothing but the entry it
    is called on.  Whether a call succeeds is for the environment to say,
    not for the tree. *)
Fixpoint walk {S : Type} (walkFn : WalkFunc S) (path : string) (t : node)
    (s : S) (w : World) {struct t} : outcome (option error * S) :=
  match t with
  | File _ => walkFn path (Some (info_of t)) None s w
  | Dir _ entries =>
      let err := option_map Errno (fault w (SysReadDir path)) in
      match walkFn path (Some (info_of t)) err s w with
      | Ret (err1, s1) w1 =>
          match err, err1 with
          | None, None =>
              (fix each (es : list (string * node)) (s : S) (w : World) {struct es}
                 : outcome (option error * S) :=
                 match es with
                 | [] => Ret (None, s) w
                 | (name, child) :: es' =>
                     let filename := Join path name in
                     match fault w (SysLstat filename) with
                     | Some code =>
                         match walkFn filename None (Some (Errno code)) s w with
                         | Ret (Some e, s') w' =>
                             if is_SkipDir e then each es' s' w'
                             else Ret (Some e, s') w'
                         | Ret (None, s') w' => each es' s' w'
                         | Exit w' => Exit w'
                         | Panic w' => Panic w'
                         end
                     | None =>
                         match walk walkFn filename child s w with
                         | Ret (Some e, s') w' =>
                             if negb (is_dir child) || negb (is_SkipDir e)
                             then Ret (Some e, s') w'
                             else each es' s' w'
                         | Ret (None, s') w' => each es' s' w'
                         | Exit w' => Exit w'
                         | Panic w' => Panic w'
                         end
                     end
                 end) entries s1 w1
          | _, _ => Ret (err1, s1) w1
          end
      | Exit w1 => Exit w1
      | Panic w1 => Panic w1
      end
  end.

(** The loop of [filepath.walk] over the entries of a directory, as a
    function of its own; [walk_Dir] shows that it is the loop inside
    [walk]. *)
Definition walk_entries {S : Type} (walkFn : WalkFunc S) (path : string)
    : list (string * node) -> S -> World -> outcome (option error * S) :=
  fix each (es : list (string * node)) (s : S) (w : World) {struct es}
    : outcome (option error * S) :=
    match es with
    | [] => Ret (None, s) w
    | (name, child) :: es' =>
        let filename := Join path name in
        match fault w (SysLstat filename) with
        | Some code =>
            match walkFn filename None (Some (Errno code)) s w with
            | Ret (Some e, s') w' =>
                if is_SkipDir e then each es' s' w'
                else Ret (Some e, s') w'
            | Ret (None, s') w' => each es' s' w'
            | Exit w' => Exit w'
            | Panic w' => Panic w'
            end
        | None =>
            match walk walkFn filename child s w with
            | Ret (Some e, s') w' =>
                if negb (is_dir child) || negb (is_SkipDir e)
                then Ret (Some e, s') w'
                else each es' s' w'
            | Ret (None, s') w' => each es' s' w'
            | Exit w' => Exit w'
            | Panic w' => Panic w'
            end
        end
    end.

(** [filepath.Walk]. *)
Definition Walk {S : Type} (root : string) (walkFn : WalkFunc S) (s : S)
    : M (option error * S) :=
  fun w =>
    let found :=
      match fault w (SysLstat root) with
      | Some code => inr (Errno code)
      | None =>
          match lookup (resolve (cwd w) root) (fs w) with
          | Some t => inl t
          | None => inr (Errno 2) (* ENOENT *)
          end
      end in
    let walked :=
      match found with
      | inr err => walkFn root None (Some err) s w
      | inl t => walk walkFn root t s w
      end in
    match walked with
    | Ret (Some e, s') w' => if is_SkipDir e then Ret (None, s') w' else Ret (Some e, s') w'
    | o => o
    end.

(** ** [TempInitDir] and its cleanup function *)

(** The walk function of the cleanup (lines 43-56); the captured variable
    is the slice [dirs]. *)
Definition cleanupWalkFn : WalkFunc (list string) :=
  fun fn fi er dirs =>
    match fi with
    | None => fun w => Panic w
    | Some fi =>
        if fi_IsDir fi then
          err <- os_Chmod fn 448 ;;
          match err with
          | Some e => ret (Some e, dirs)
          | None => ret (None, dirs ++ [fn])
          end
        else
          err <- os_Remove fn ;;
          ret (err, dirs)
    end.

(** The loop of lines 62-67, with [n] standing for [i+1]. *)
Fixpoint removeDirs (dirs : list string) (n : nat) : M unit :=
  match n with
  | O => ret tt
  | S i =>
      err <- os_RemoveAll (nth i dirs ""%string) ;;
      match err with
      | Some e => log_Fatalln e
      | None => removeDirs dirs i
      end
  end.

(** The cleanup function that [TempInitDir] returns (lines 38-68). *)
Definition cleanup (root : string) : M unit :=
  '(err, dirs) <- Walk root cleanupWalkFn [] ;;
  match err with
  | Some e => log_Fatalln e
  | None => removeDirs dirs (List.length dirs)
  end.

(** What the lifecycle operations return: a path, a cleanup function or
    nil, an error or nil. *)
Definition handle : Type := string * option (M unit) * option error.

Definition TempInitDir : M handle :=
  '(root, err) <- ioutil_TempDir ;;
  match err with
  | Some e =>
      _ <- os_RemoveAll root ;;
      ret (""%string, None, Some e)
  | None => ret (root, Some (cleanup root), None)
  end.

(** Only called on a handle without error, whose cleanup is not nil. *)
Definition call_cleanup (c : option (M unit)) : M unit :=
  match c with
  | Some f => f
  | None => fun w => Panic w
  end.

Definition TempInitChdir : M handle :=
  '(root, cleanup, err) <- TempInitDir ;;
  match err with
  | Some e => ret (""%string, None, Some e)
  | None =>
      '(wd, err) <- os_Getwd ;;
      match err with
      | Some e =>
          _ <- call_cleanup cleanup ;;
          ret (""%string, None, Some e)
      | None =>
          err <- os_Chdir root ;;
          match err with
          | Some e =>
              _ <- call_cleanup cleanup ;;
              ret (""%string, None, Some e)
          | None =>
              ret (wd,
                   Some (_ <- os_Chdir wd ;; call_cleanup cleanup),
                   None)
          end
      end
  end.

(** [TreeCopy] and [TreeCreate] are functions of the package defined in
    files that are not part of the sources at hand; the operations below
    only call them and test their error.  [Config] is the [io.Reader]
    that [TreeCreate] consumes. *)
Variable TreeCopy : string -> string -> M (option error).
Variable Config : Type.
Variable TreeCreate : Config -> M (option error).

Definition TempCloneDir (src : string) : M handle :=
  '(root, cleanup, err) <- TempInitDir ;;
  match err with
  | Some e => ret (""%string, None, Some e)
  | None =>
      err <- TreeCopy src root ;;
      match err with
      | Some e =>
          _ <- call_cleanup cleanup ;;
          ret (""%string, None, Some e)
      | None => ret (root, cleanup, None)
      end
  end.

Definition TempCloneChdir (src : string) : M handle :=
  '(root, cleanup, err) <- TempCloneDir src ;;
  match err with
  | Some e => ret (""%string, None, Some e)
  | None =>
      '(wd, err) <- os_Getwd ;;
      match err with
      | Some e =>
          _ <- call_cleanup cleanup ;;
          ret (""%string, None, Some e)
      | None =>
          err <- os_Chdir root ;;
          match err with
          | Some e =>
              _ <- call_cleanup cleanup ;;
              ret (""%string, None, Some e)
          | None =>
              ret (wd,
                   Some (_ <- os_Chdir wd ;; call_cleanup cleanup),
                   None)
          end
      end
  end.

Definition TempCreateChdir (config : Config) : M handle :=
  '(old, cleanup, err) <- TempInitChdir ;;
  match err with
  | Some e => ret (""%string, None, Some e)
  | None =>
      err <- TreeCreate config ;;
      match err with
      | Some e =>
          _ <- call_cleanup cleanup ;;
          ret (""%string, None, Some e)
      | None => ret (old, cleanup, None)
      end
  end.

End Lifecycle.

(* ================================================================== *)
(** * Concrete inputs *)
(* ================================================================== *)

Definition bytes (s : string) : list Byte.byte := list_byte_of_string s.

(** Two regular files, a directory, and an environment in which the paths
    "aaa", "ab", "a" and "eio" open; "eio" fails its first read with an
    input/output error, any other path does not exist. *)
Definition ex_Open (path : string) : Reader + error :=
  if String.eqb path "aaa" then inl (reader_of (bytes "aaa"))
  else if String.eqb path "aaaa" then inl (reader_of (bytes "aaaa"))
  else if String.eqb path "ab" then inl (reader_of (bytes "ab"))
  else if String.eqb path "a" then inl (reader_of (bytes "a"))
  else if String.eqb path "eio" then inl (Fail (Errno 5))
  else inr (Errno 2).

Definition ex_file (name : string) (size : Z) (mtime : Time) : FileInfoPath :=
  {| Name := name; Size := size; Mode := 420; ModTime := mtime;
     IsDir := false; Path := name |}.

Definition ex_dir (name : string) : FileInfoPath :=
  {| Name := name; Size := 4096; Mode := Z.lor ModeDir 493; ModTime := 0;
     IsDir := true; Path := name |}.

(** The report of the test is the error given to [t.Fatal]. *)
Definition ex_Fatal (e : error) : error := e.

(** An environment in which no call fails and [ioutil.TempDir] picks
    "/tmp/fst1"; a file system with a home directory and an empty "/tmp";
    and the same once "/tmp/fst1" was created and populated with a file
    "a" and a read-only directory "ro" that holds a file "b". *)
Definition ex_quiet : World -> syscall -> option nat := fun _ _ => None.

Definition ex_temp_name : World -> string := fun _ => "/tmp/fst1"%string.

Definition ex_world : World :=
  {| fs := Dir 493 [("home", Dir 493 [("u", Dir 493 [])]); ("tmp", Dir 511 [])]%string;
     cwd := "/home/u"; log := [] |}.

Definition ex_tree : node :=
  Dir 448 [("a", File 420); ("ro", Dir 365 [("b", File 292)])]%string.

Definition ex_populated : World :=
  {| fs := Dir 493 [("home", Dir 493 [("u", Dir 493 [])]);
                    ("tmp", Dir 511 [("fst1", ex_tree)])]%string;
     cwd := "/home/u"; log := [SysTempDir] |}.

(** A tree copy that populates the new directory as in [ex_populated],
    one that fails, and a tree creation that fails. *)
Definition ex_TreeCopy : string -> string -> M (option error) :=
  fun src dst w =>
    Ret None
        (with_fs (alter_root (fun _ => Some ex_tree) (resolve (cwd w) dst) (fs w)) w).

Definition ex_TreeCopy_fails : string -> string -> M (option error) :=
  fun src dst w => Ret (Some (Errno 13)) w.

Definition ex_TreeCreate_fails : unit -> M (option error) :=
  fun config w => Ret (Some (Errno 22)) w.

(** ** Vocabulary of the statements *)

(** The entries under a path in the order of the walk: an entry, then,
    for a directory, what lies under each of its entries in turn. *)
Fixpoint visits (path : string) (t : node) {struct t} : list (string * node) :=
  (path, t) ::
  match t with
  | File _ => []
  | Dir _ entries =>
      flat_map (fun nc => visits (Join path (fst nc)) (snd nc)) entries
  end.

(** What lies strictly below a directory. *)
Definition descendants (path : string) (entries : list (string * node))
    : list (string * node) :=
  flat_map (fun nc => visits (Join path (fst nc)) (snd nc)) entries.

(** The call the cleanup makes when the walk visits an entry, the
    directories among the visited entries, and the call that removes an
    entry for good. *)
Definition visit_call (v : string * node) : syscall :=
  if is_dir (snd v) then SysChmod (fst v) 448 else SysRemove (fst v).

Definition dirs_of (vs : list (string * node)) : list string :=
  map fst (filter (fun v => is_dir (snd v)) vs).

Definition removal (v : string * node) : syscall :=
  if is_dir (snd v) then SysRemoveAll (fst v) else SysRemove (fst v).

(** The two phases of a cleanup that runs to its end over the visits
    [vs]. *)
Definition phase_one (vs : list (string * node)) : list syscall :=
  map visit_call vs.

Definition phase_two (vs : list (string * node)) : list syscall :=
  map SysRemoveAll (rev (dirs_of vs)).

(** The environment lets the walk read the tree. *)
Definition reads_succeed (fault : World -> syscall -> option nat) : Prop :=
  forall w p, fault w (SysLstat p) = None /\ fault w (SysReadDir p) = None.

(** The environment fails no call at all. *)
Definition no_fault (fault : World -> syscall -> option nat) : Prop :=
  forall w s, fault w s = None.



(** [cleans_up_then_fails o teardown w e]: the operation that ended as
    [o] has run [teardown] from the world [w] in which a step failed with
    [e], and then returned the empty path, a nil cleanup function and [e];
    should [teardown] itself end the process, the operation ended there. *)
Definition cleans_up_then_fails (o : outcome handle) (teardown : M unit)
    (w : World) (e : error) : Prop :=
  match teardown w with
  | Ret _ w' => o = Ret (""%string, None, Some e) w'
  | Exit w' => o = Exit w'
  | Panic w' => o = Panic w'
  end.

(** [restores_then_cleans fault teardown wd root]: run in any world [v],
    [teardown] first calls [Chdir] on [wd] (whose error, if any, it drops)
    and then, in the world [v1] that this call leaves, behaves as the
    cleanup function of [root].  So the calls it issues are [Chdir wd]
    followed by calls of the cleanup; and when no call fails it returns in
    the working directory [wd], with [root] not found any more. *)
Definition restores_then_cleans (fault : World -> syscall -> option nat)
    (teardown : M unit) (wd root : string) : Prop :=
  forall v : World,
  exists (err : option error) (v1 : World),
    os_Chdir fault wd v = Ret err v1 /\
    log v1 = log v ++ [SysChdir wd] /\
    (err = None -> cwd v1 = absolute (cwd v) wd) /\
    teardown v = cleanup fault root v1 /\
    (forall t,
       reads_succeed fault ->
       lookup (resolve (cwd v1) root) (fs v1) = Some t ->
       exists issued rest,
         log (final (teardown v)) = log v ++ SysChdir wd :: issued /\
         phase_one (visits root t) ++ phase_two (visits root t) = issued ++ rest) /\
    (forall perm entries,
       no_fault fault ->
       lookup (resolve (cwd v1) root) (fs v1) = Some (Dir perm entries) ->
       resolve (cwd v1) root <> [] ->
       exists w',
         teardown v = Ret tt w' /\
         cwd w' = absolute (cwd v) wd /\
         lookup (resolve (cwd w') root) (fs w') = None).

(** What a walk with the cleanup's walk function can end as, started with
    [dirs] recorded in the world [w], when [vs] is what it has to visit:
    either every call succeeded, the calls of the visits were issued in
    order and the directories were appended to [dirs]; or a call failed,
    the walk stopped there with the error of that call, and the calls
    issued are the ones up to the failing one. *)
Inductive walked (fault : World -> syscall -> option nat)
    (vs : list (string * node)) (dirs : list string) (w : World)
    : outcome (option error * list string) -> Prop :=
| walked_all w' :
    log w' = log w ++ phase_one vs ->
    cwd w' = cwd w ->
    walked fault vs dirs w (Ret (None, dirs ++ dirs_of vs) w')
| walked_until_failure code dirs' w' before call after wf :
    phase_one vs = before ++ call :: after ->
    log w' = log w ++ before ++ [call] ->
    cwd w' = cwd w ->
    fault wf call = Some code ->
    walked fault vs dirs w (Ret (Some (Errno code), dirs') w').

(** What a computation without result can end as, when [calls] is what
    it has to issue: either every call succeeded and it returned, or a call
    failed and [log.Fatalln] ended the process right after it. *)
Inductive ran (fault : World -> syscall -> option nat)
    (calls : list syscall) (w : World) : outcome unit -> Prop :=
| ran_all w' :
    log w' = log w ++ calls ->
    cwd w' = cwd w ->
    ran fault calls w (Ret tt w')
| ran_until_failure code w' before call after wf :
    calls = before ++ call :: after ->
    log w' = log w ++ before ++ [call] ->
    cwd w' = cwd w ->
    fault wf call = Some code ->
    ran fault calls w (Exit w').

(** ** Vocabulary of the further properties *)


(** The positions of the bits gathered in [ModeType]. *)
Definition type_bits : list Z := [31; 27; 26; 25; 24; 21; 19].

(** A descriptor given by all its attributes, its path being its name. *)
Definition ex_entry (name : string) (dir : bool) (mode : FileMode) (size : Z)
    (mtime : Time) : FileInfoPath :=
  {| Name := name; Size := size; Mode := mode; ModTime := mtime;
     IsDir := dir; Path := name |}.

(** An environment in which [ioutil.TempDir] is the one call that
    fails. *)
Definition ex_no_TempDir : World -> syscall -> option nat :=
  fun _ s => match s with SysTempDir => Some 28%nat | _ => None end.

(** A tree creation that adds the file "a" to the working directory. *)
Definition ex_TreeCreate : unit -> M (option error) :=
  fun config w =>
    Ret None
        (with_fs (alter_root (fun _ => Some (Dir 448 [("a"%string, File 420)]))
                    (components (cwd w)) (fs w)) w).

(** A file tree in which no directory holds two entries of the same
    name. *)
Inductive well_formed : node -> Prop :=
| wf_File perm : well_formed (File perm)
| wf_Dir perm entries :
    NoDup (map fst entries) ->
    (forall name c, In (name, c) entries -> well_formed c) ->
    well_formed (Dir perm entries).


(* ================================================================== *)
(** * Properties of the comparators *)
(* ================================================================== *)

Section LoopFacts.

Lemma byte_eqb_refl (b : Byte.byte) : Byte.eqb b b = true.
Proof. now apply Byte.byte_dec_lb. Qed.

Lemma byte_eqb_neq (a b : Byte.byte) : a <> b -> Byte.eqb a b = false.
Proof.
  intros Hab. destruct (Byte.eqb a b) eqn:E; [|reflexivity].
  now apply Byte.byte_dec_bl in E.
Qed.

(** One iteration of the loop, with [ReadByte] on both readers as in the
    source. *)
Lemma compare_loop_eq (leftBuf rightBuf : Reader) :
  compare_loop leftBuf rightBuf =
  match ReadByte rightBuf with
  | inr _ => false
  | inl (rByte, rightBuf') =>
      match ReadByte leftBuf with
      | inr _ => true
      | inl (lByte, leftBuf') =>
          if Byte.eqb lByte rByte then compare_loop leftBuf' rightBuf'
          else byte_lt lByte rByte
      end
  end.
Proof.
  destruct rightBuf as [e|rb r']; [reflexivity|].
  destruct leftBuf as [e|lb l']; [reflexivity|].
  simpl. destruct (Byte.eqb lb rb); [reflexivity|].
  now destruct (byte_lt lb rb).
Qed.

Lemma delivered_reader_of (content : list Byte.byte) :
  delivered (reader_of content) = content.
Proof. induction content; simpl; congruence. Qed.

Lemma delivered_reader_until (content : list Byte.byte) (e : error) :
  delivered (reader_until content e) = content /\
  ending (reader_until content e) = e.
Proof. induction content; simpl; intuition congruence. Qed.

(** The loop only looks at the bytes the readers deliver. *)
Lemma compare_loop_delivered (l1 l2 r1 r2 : Reader) :
  delivered l1 = delivered l2 ->
  delivered r1 = delivered r2 ->
  compare_loop l1 r1 = compare_loop l2 r2.
Proof.
  revert l1 l2 r2.
  induction r1 as [e|rb r1 IH]; intros l1 l2 r2 Hl Hr;
    destruct r2 as [e2|rb2 r2]; simpl in Hr; try discriminate; [reflexivity|].
  injection Hr as -> Hr.
  destruct l1 as [e1|lb l1], l2 as [e3|lb2 l2]; simpl in Hl; try discriminate;
    [reflexivity|].
  injection Hl as -> Hl. simpl.
  destruct (Byte.eqb lb2 rb2); [now apply IH|reflexivity].
Qed.

Lemma compare_loop_right_exhausted (l r : Reader) (rest : list Byte.byte) :
  delivered l = delivered r ++ rest -> compare_loop l r = false.
Proof.
  revert l. induction r as [e|rb r IH]; intros l H; [reflexivity|].
  destruct l as [e|lb l]; simpl in H; [discriminate|].
  injection H as -> H. simpl. rewrite byte_eqb_refl. now apply IH.
Qed.

Lemma compare_loop_left_exhausted (l r : Reader) (b : Byte.byte)
    (rest : list Byte.byte) :
  delivered r = delivered l ++ b :: rest -> compare_loop l r = true.
Proof.
  revert l. induction r as [e|rb r IH]; intros l H.
  - simpl in H. now destruct (delivered l).
  - destruct l as [e|lb l]; [reflexivity|].
    simpl in H. injection H as -> H. simpl. rewrite byte_eqb_refl. now apply IH.
Qed.

Lemma compare_loop_first_difference (l r : Reader) (p : list Byte.byte)
    (x y : Byte.byte) (ltail rtail : list Byte.byte) :
  delivered l = p ++ x :: ltail ->
  delivered r = p ++ y :: rtail ->
  x <> y ->
  compare_loop l r = byte_lt x y.
Proof.
  revert l r. induction p as [|c p IH]; intros l r Hl Hr Hxy;
    destruct l as [el|lb l], r as [er|rb r]; simpl in Hl, Hr; try discriminate;
    injection Hl as -> Hl; injection Hr as -> Hr; simpl.
  - rewrite (byte_eqb_neq _ _ Hxy). now destruct (byte_lt x y).
  - rewrite byte_eqb_refl. now apply IH.
Qed.

End LoopFacts.

Section ComparatorClaims.

Context {R : Type}.
Variable t_Fatal : error -> R.
Variable Open : string -> Reader + error.

(** C3.  The loop of [ByContent] reads the right reader first in every
    iteration.  With both files open: when the right reader is exhausted
    first, that is when what it delivers is a prefix of what the left one
    delivers (strict or not, both empty included), the result is false;
    when the left reader is exhausted first, that is when what it delivers
    is a strict prefix of what the right one delivers, the result is true;
    left "ab" against right "a" gives false. *)
Theorem ByContent_right_read_first (left right : FileInfoPath)
    (leftBuf rightBuf : Reader) :
  Open (Path left) = inl leftBuf ->
  Open (Path right) = inl rightBuf ->
  ByContent t_Fatal Open left right = Done (compare_loop leftBuf rightBuf) /\
  compare_loop leftBuf rightBuf =
    match ReadByte rightBuf with
    | inr _ => false
    | inl (rByte, rightBuf') =>
        match ReadByte leftBuf with
        | inr _ => true
        | inl (lByte, leftBuf') =>
            if Byte.eqb lByte rByte then compare_loop leftBuf' rightBuf'
            else byte_lt lByte rByte
        end
    end /\
  (forall rest, delivered leftBuf = delivered rightBuf ++ rest ->
     ByContent t_Fatal Open left right = Done false) /\
  (forall b rest, delivered rightBuf = delivered leftBuf ++ b :: rest ->
     ByContent t_Fatal Open left right = Done true) /\
  (delivered leftBuf = bytes "ab" -> delivered rightBuf = bytes "a" ->
     ByContent t_Fatal Open left right = Done false).
Proof.
  intros Hl Hr.
  assert (E : ByContent t_Fatal Open left right = Done (compare_loop leftBuf rightBuf))
    by (unfold ByContent; now rewrite Hl, Hr).
  split; [exact E|]. split; [apply compare_loop_eq|].
  rewrite E. repeat split.
  - intros rest H. f_equal. eapply compare_loop_right_exhausted; eassumption.
  - intros b rest H. f_equal. eapply compare_loop_left_exhausted; eassumption.
  - intros Hab Ha. f_equal.
    apply compare_loop_right_exhausted with (rest := bytes "b").
    now rewrite Hab, Ha.
Qed.

(** C7.  The content order is decided by the first byte that differs,
    whatever the lengths: when the two files agree on a prefix and then
    hold different bytes [x] (left) and [y] (right), the result is true
    exactly when [x] is numerically smaller than [y]; "aaa" and "aaaa" both
    rank below "ab". *)
Theorem ByContent_first_difference_decides (left right : FileInfoPath)
    (leftBuf rightBuf : Reader) :
  Open (Path left) = inl leftBuf ->
  Open (Path right) = inl rightBuf ->
  (forall p x y ltail rtail,
     delivered leftBuf = p ++ x :: ltail ->
     delivered rightBuf = p ++ y :: rtail ->
     x <> y ->
     (ByContent t_Fatal Open left right = Done true <->
      (Byte.to_N x < Byte.to_N y)%N) /\
     (ByContent t_Fatal Open left right = Done false <->
      (Byte.to_N y < Byte.to_N x)%N)) /\
  (delivered rightBuf = bytes "ab" ->
   delivered leftBuf = bytes "aaa" \/ delivered leftBuf = bytes "aaaa" ->
   ByContent t_Fatal Open left right = Done true).
Proof.
  intros Hl Hr.
  assert (E : ByContent t_Fatal Open left right = Done (compare_loop leftBuf rightBuf))
    by (unfold ByContent; now rewrite Hl, Hr).
  rewrite E. split.
  - intros p x y ltail rtail Hp Hq Hxy.
    rewrite (compare_loop_first_difference _ _ _ _ _ _ _ Hp Hq Hxy).
    assert (Hne : Byte.to_N x <> Byte.to_N y).
    { intros Heq. apply Hxy.
      assert (Some x = Some y) as [= ->]; [|reflexivity].
      rewrite <- (Byte.of_to_N x), <- (Byte.of_to_N y). now rewrite Heq. }
    unfold byte_lt. destruct (N.ltb_spec (Byte.to_N x) (Byte.to_N y)); split; split;
      intros H'; try reflexivity; try discriminate; try assumption; lia.
  - intros Hab Haaa. f_equal.
    (* x61 is the byte of "a", x62 the byte of "b" *)
    assert (Hab' : Byte.x61 <> Byte.x62) by discriminate.
    destruct Haaa as [H|H].
    + rewrite (compare_loop_first_difference leftBuf rightBuf
                 (bytes "a") Byte.x61 Byte.x62 (bytes "a") [] H Hab Hab').
      reflexivity.
    + rewrite (compare_loop_first_difference leftBuf rightBuf
                 (bytes "a") Byte.x61 Byte.x62 (bytes "aa") [] H Hab Hab').
      reflexivity.
Qed.

End ComparatorClaims.

Lemma ByContent_right_read_first_witness :
  ex_Open (Path (ex_file "ab" 2 0)) = inl (reader_of (bytes "ab")) /\
  ex_Open (Path (ex_file "a" 1 0)) = inl (reader_of (bytes "a")) /\
  ByContent ex_Fatal ex_Open (ex_file "ab" 2 0) (ex_file "a" 1 0) = Done false.
Proof.
  split; [reflexivity|]. split; [reflexivity|].
  exact (proj1 (proj2 (proj2
           (ByContent_right_read_first ex_Fatal ex_Open
              (ex_file "ab" 2 0) (ex_file "a" 1 0) _ _ eq_refl eq_refl)))
           (bytes "b") eq_refl).
Defined.

Lemma ByContent_first_difference_decides_witness :
  ex_Open (Path (ex_file "aaa" 3 0)) = inl (reader_of (bytes "aaa")) /\
  ex_Open (Path (ex_file "ab" 2 0)) = inl (reader_of (bytes "ab")) /\
  ByContent ex_Fatal ex_Open (ex_file "aaa" 3 0) (ex_file "ab" 2 0) = Done true.
Proof.
  split; [reflexivity|]. split; [reflexivity|].
  exact (proj2
           (ByContent_first_difference_decides ex_Fatal ex_Open
              (ex_file "aaa" 3 0) (ex_file "ab" 2 0) _ _ eq_refl eq_refl)
           eq_refl (or_introl eq_refl)).
Defined.

(** C4, as stated, fails: with both files open, a read of the right file
    that fails with an input/output error makes [ByContent] return the
    ordinary boolean false; nothing is reported through [t.Fatal]. *)
Lemma ByContent_read_error_returns_bool :
  exists leftBuf rightBuf,
    ex_Open (Path (ex_file "a" 1 0)) = inl leftBuf /\
    ex_Open (Path (ex_file "eio" 1 0)) = inl rightBuf /\
    ReadByte rightBuf = inr (Errno 5) /\
    ByContent ex_Fatal ex_Open (ex_file "a" 1 0) (ex_file "eio" 1 0) = Done false /\
    forall e, ByContent ex_Fatal ex_Open (ex_file "a" 1 0) (ex_file "eio" 1 0)
              <> Aborted (ex_Fatal e).
Proof.
  exists (reader_of (bytes "a")), (Fail (Errno 5)).
  repeat split; try reflexivity. intros e. discriminate.
Qed.

Section ContentErrors.

Context {R : Type}.
Variable t_Fatal : error -> R.
Variable Open : string -> Reader + error.

(** C4, amended.  Only an error of opening either file is reported
    through the injected [t.Fatal].  Once both files are open,
    [ByContent] returns an ordinary boolean whatever error the reads meet:
    the result only depends on the bytes delivered before the first failing
    read, a failing read of the right file gives false and a failing read
    of the left file gives true, be the error the end of the file or any
    other. *)
Theorem ByContent_reports_only_open_errors (left right : FileInfoPath) :
  (forall e, Open (Path left) = inr e ->
     ByContent t_Fatal Open left right = Aborted (t_Fatal e)) /\
  (forall leftBuf e, Open (Path left) = inl leftBuf -> Open (Path right) = inr e ->
     ByContent t_Fatal Open left right = Aborted (t_Fatal e)) /\
  (forall leftBuf rightBuf,
     Open (Path left) = inl leftBuf -> Open (Path right) = inl rightBuf ->
     ByContent t_Fatal Open left right = Done (compare_loop leftBuf rightBuf) /\
     compare_loop leftBuf rightBuf =
       compare_loop (reader_of (delivered leftBuf)) (reader_of (delivered rightBuf)) /\
     (forall e, ReadByte rightBuf = inr e ->
        ByContent t_Fatal Open left right = Done false) /\
     (forall e b rightBuf', ReadByte rightBuf = inl (b, rightBuf') ->
        ReadByte leftBuf = inr e ->
        ByContent t_Fatal Open left right = Done true)).
Proof.
  unfold ByContent. split; [|split].
  - intros e ->. reflexivity.
  - intros leftBuf e -> ->. reflexivity.
  - intros leftBuf rightBuf -> ->. split; [reflexivity|]. split.
    + apply compare_loop_delivered; now rewrite delivered_reader_of.
    + split.
      * intros e H. rewrite compare_loop_eq, H. reflexivity.
      * intros e b r' Hr Hl. rewrite compare_loop_eq, Hr, Hl. reflexivity.
Qed.

(** C5.  [Less] evaluates the chain from left to right and returns true
    at the first rank function that returns true, whatever follows it in
    the chain (what follows is not evaluated: it may even be a function
    that would abort the test); when every function of the chain returns
    false, [Less] returns false; with an empty chain it returns false. *)
Theorem Less_short_circuit (left right : FileInfoPath) :
  (forall (pre : list (FileRank R)) less post,
     Forall (fun f => f left right = Done false) pre ->
     less left right = Done true ->
     Less left right (pre ++ less :: post) = Done true) /\
  (forall cmps : list (FileRank R),
     Forall (fun f => f left right = Done false) cmps ->
     Less left right cmps = Done false) /\
  Less (R := R) left right [] = Done false.
Proof.
  split; [|split; [|reflexivity]].
  - intros pre less post Hpre Hless.
    induction Hpre as [|f pre Hf _ IH]; simpl.
    + now rewrite Hless.
    + now rewrite Hf.
  - intros cmps H. induction H as [|f cmps Hf _ IH]; simpl; [reflexivity|].
    now rewrite Hf.
Qed.

End ContentErrors.

Lemma ByContent_reports_only_open_errors_witness :
  ex_Open (Path (ex_file "a" 1 0)) = inl (reader_of (bytes "a")) /\
  ex_Open (Path (ex_file "eio" 1 0)) = inl (Fail (Errno 5)) /\
  ByContent ex_Fatal ex_Open (ex_file "a" 1 0) (ex_file "eio" 1 0) = Done false.
Proof.
  split; [reflexivity|]. split; [reflexivity|].
  exact (proj1 (proj2 (proj2
           (proj2 (proj2
              (ByContent_reports_only_open_errors ex_Fatal ex_Open
                 (ex_file "a" 1 0) (ex_file "eio" 1 0)))
              _ _ eq_refl eq_refl)))
           (Errno 5) eq_refl).
Defined.

(** The chain [ByDir; ByName; ByContent] on a directory and a file named
    "missing": [ByDir] decides, and [ByContent], which would abort on the
    file that does not open, is not reached. *)
Lemma Less_short_circuit_witness :
  ByContent ex_Fatal ex_Open (ex_dir "d") (ex_file "missing" 0 0)
    = Aborted (Errno 2) /\
  Less (ex_dir "d") (ex_file "missing" 0 0)
       [lift ByDir; lift ByName; ByContent ex_Fatal ex_Open] = Done true.
Proof.
  split; [reflexivity|].
  exact (proj1 (Less_short_circuit (ex_dir "d") (ex_file "missing" 0 0))
           [] (lift ByDir) [lift ByName; ByContent ex_Fatal ex_Open]
           (Forall_nil _) eq_refl).
Defined.

Section PrimitiveFacts.











End PrimitiveFacts.






(* ================================================================== *)
(** * Properties of the lifecycle *)
(* ================================================================== *)

(** Induction on a file tree: a property that holds of the files, and of
    a directory as soon as it holds of all its entries, holds of every
    tree. *)
Lemma node_ind (P : node -> Prop) :
  (forall perm, P (File perm)) ->
  (forall perm entries, Forall (fun nc => P (snd nc)) entries -> P (Dir perm entries)) ->
  forall t, P t.
Proof.
  intros HF HD. fix IH 1. intros [perm|perm entries]; [apply HF|].
  apply HD. induction entries as [|[name c] entries IHes]; constructor.
  - apply IH.
  - exact IHes.
Qed.

Section WalkFacts.

Variable fault : World -> syscall -> option nat.

Lemma walk_Dir {S : Type} (walkFn : WalkFunc S) path perm entries s w :
  walk fault walkFn path (Dir perm entries) s w =
  let err := option_map Errno (fault w (SysReadDir path)) in
  match walkFn path (Some (info_of (Dir perm entries))) err s w with
  | Ret (err1, s1) w1 =>
      match err, err1 with
      | None, None => walk_entries fault walkFn path entries s1 w1
      | _, _ => Ret (err1, s1) w1
      end
  | Exit w1 => Exit w1
  | Panic w1 => Panic w1
  end.
Proof. reflexivity. Qed.

Lemma walk_entries_cons {S : Type} (walkFn : WalkFunc S) path name child es s w :
  fault w (SysLstat (Join path name)) = None ->
  walk_entries fault walkFn path ((name, child) :: es) s w =
  match walk fault walkFn (Join path name) child s w with
  | Ret (Some e, s') w' =>
      if negb (is_dir child) || negb (is_SkipDir e)
      then Ret (Some e, s') w'
      else walk_entries fault walkFn path es s' w'
  | Ret (None, s') w' => walk_entries fault walkFn path es s' w'
  | Exit w' => Exit w'
  | Panic w' => Panic w'
  end.
Proof. intros H. simpl. now rewrite H. Qed.

Lemma walked_nil dirs w : walked fault [] dirs w (Ret (None, dirs) w).
Proof.
  pose proof (walked_all fault [] dirs w w) as H. simpl in H.
  rewrite !app_nil_r in H. now apply H.
Qed.

Lemma walked_app vs1 vs2 dirs w w1 o :
  log w1 = log w ++ phase_one vs1 ->
  cwd w1 = cwd w ->
  walked fault vs2 (dirs ++ dirs_of vs1) w1 o ->
  walked fault (vs1 ++ vs2) dirs w o.
Proof.
  intros Hlog Hcwd H. destruct H as [w' Hl Hc|code dirs' w' before call after wf Hp Hl Hc Hf].
  - replace ((dirs ++ dirs_of vs1) ++ dirs_of vs2) with (dirs ++ dirs_of (vs1 ++ vs2)).
    + constructor.
      * unfold phase_one in *. rewrite map_app, Hl, Hlog. now rewrite <- !app_assoc.
      * congruence.
    + unfold dirs_of. now rewrite filter_app, map_app, app_assoc.
  - apply walked_until_failure with (before := phase_one vs1 ++ before)
                                    (call := call) (after := after) (wf := wf).
    + unfold phase_one in *. rewrite map_app, Hp. now rewrite <- app_assoc.
    + rewrite Hl, Hlog. now rewrite <- !app_assoc.
    + congruence.
    + exact Hf.
Qed.

Lemma walked_failure_app vs1 vs2 dirs w code dirs' w' :
  walked fault vs1 dirs w (Ret (Some (Errno code), dirs') w') ->
  walked fault (vs1 ++ vs2) dirs w (Ret (Some (Errno code), dirs') w').
Proof.
  intros H. inversion H as [|c d' w'' before call after wf Hp Hl Hc Hf]; subst.
  apply walked_until_failure with (before := before) (call := call)
                                  (after := after ++ phase_one vs2) (wf := wf);
    try assumption.
  unfold phase_one in *. rewrite map_app, Hp. now rewrite <- app_assoc.
Qed.

(** The cleanup's walk function on one entry. *)
Lemma cleanupWalkFn_walked path t er dirs w :
  walked fault [(path, t)] dirs w (cleanupWalkFn fault path (Some (info_of t)) er dirs w).
Proof.
  unfold cleanupWalkFn.
  destruct t as [perm|perm entries]; simpl;
    unfold bind, os_Remove, os_Chmod, os_call;
    match goal with |- context [fault w ?s] => destruct (fault w s) as [code|] eqn:E end;
    simpl.
  - apply walked_until_failure with (before := []) (call := SysRemove path)
                                    (after := []) (wf := w); auto.
  - pose proof (walked_all fault [(path, File perm)] dirs) as H.
    unfold dirs_of in H. simpl in H. rewrite app_nil_r in H. now apply H.
  - apply walked_until_failure with (before := []) (call := SysChmod path 448)
                                    (after := []) (wf := w); auto.
  - now apply (walked_all fault [(path, Dir perm entries)] dirs).
Qed.

Hypothesis reads : reads_succeed fault.

Lemma walk_entries_walked path entries :
  Forall (fun nc => forall path dirs w,
            walked fault (visits path (snd nc)) dirs w
                   (walk fault (cleanupWalkFn fault) path (snd nc) dirs w)) entries ->
  forall dirs w,
    walked fault (descendants path entries) dirs w
           (walk_entries fault (cleanupWalkFn fault) path entries dirs w).
Proof.
  induction 1 as [|[name child] es Hc _ IH]; intros dirs w.
  - apply walked_nil.
  - rewrite walk_entries_cons by apply reads.
    unfold descendants. simpl. fold (descendants path es).
    specialize (Hc (Join path name) dirs w). simpl in Hc.
    remember (walk fault (cleanupWalkFn fault) (Join path name) child dirs w)
      as o eqn:Eo.
    destruct Hc as [w' Hl Hcw|code dirs' w' before call after wf Hp Hl Hcw Hf].
    + eapply walked_app; [exact Hl|exact Hcw|apply IH].
    + simpl. rewrite orb_true_r.
      apply walked_failure_app. eapply walked_until_failure; eassumption.
Qed.

Lemma walk_walked t :
  forall path dirs w,
    walked fault (visits path t) dirs w (walk fault (cleanupWalkFn fault) path t dirs w).
Proof.
  induction t as [perm|perm entries IH] using node_ind; intros path dirs w.
  - apply cleanupWalkFn_walked.
  - rewrite walk_Dir. destruct (reads w path) as [_ ->]. simpl option_map. cbv zeta.
    pose proof (cleanupWalkFn_walked path (Dir perm entries) None dirs w) as Hc.
    change (visits path (Dir perm entries))
      with ([(path, Dir perm entries)] ++ descendants path entries).
    remember (cleanupWalkFn fault path (Some (info_of (Dir perm entries))) None dirs w)
      as o eqn:Eo.
    destruct Hc as [w' Hl Hcw|code dirs' w' before call after wf Hp Hl Hcw Hf].
    + eapply walked_app; [exact Hl|exact Hcw|].
      now apply walk_entries_walked.
    + apply walked_failure_app. eapply walked_until_failure; eassumption.
Qed.

End WalkFacts.

Section CleanupFacts.

Variable fault : World -> syscall -> option nat.

Lemma firstn_succ_nth (l : list string) (i : nat) :
  (i < List.length l)%nat ->
  firstn (S i) l = firstn i l ++ [nth i l ""%string].
Proof.
  revert i. induction l as [|x l IH]; intros i Hi; simpl in Hi; [lia|].
  destruct i as [|i]; [reflexivity|].
  simpl. f_equal. apply IH. lia.
Qed.

(** The loop that removes the recorded directories issues [RemoveAll] on
    them from the last one down to the first. *)
Lemma removeDirs_ran (dirs : list string) (n : nat) :
  (n <= List.length dirs)%nat ->
  forall w,
    ran fault (map SysRemoveAll (rev (firstn n dirs))) w (removeDirs fault dirs n w).
Proof.
  induction n as [|i IH]; intros Hn w.
  - simpl. apply ran_all; [now rewrite app_nil_r|reflexivity].
  - rewrite firstn_succ_nth by lia. rewrite rev_app_distr. simpl.
    unfold bind, os_RemoveAll, os_call.
    destruct (fault w (SysRemoveAll (nth i dirs ""%string))) as [code|] eqn:E.
    + apply ran_until_failure with (code := code) (before := [])
        (call := SysRemoveAll (nth i dirs ""%string))
        (after := map SysRemoveAll (rev (firstn i dirs))) (wf := w); auto.
    + set (w1 := with_fs _ _).
      specialize (IH ltac:(lia) w1).
      remember (removeDirs fault dirs i w1) as o eqn:Eo.
      destruct IH as [w' Hl Hc|code w' before call after wf Hp Hl Hc Hf].
      * apply ran_all; [rewrite Hl|rewrite Hc]; subst w1; simpl; try reflexivity.
        now rewrite <- app_assoc.
      * apply ran_until_failure with (code := code)
          (before := SysRemoveAll (nth i dirs ""%string) :: before)
          (call := call) (after := after) (wf := wf);
          [ simpl; now rewrite Hp
          | rewrite Hl; subst w1; simpl; now rewrite <- app_assoc
          | rewrite Hc; subst w1; reflexivity
          | exact Hf ].
Qed.

Hypothesis reads : reads_succeed fault.

(** The cleanup over the tree [t] found at [root]: the calls of phase one
    followed by the calls of phase two, cut short by the first call that
    fails. *)
Lemma cleanup_ran (root : string) (t : node) (w : World) :
  lookup (resolve (cwd w) root) (fs w) = Some t ->
  ran fault (phase_one (visits root t) ++ phase_two (visits root t)) w
      (cleanup fault root w).
Proof.
  intros Ht. unfold cleanup, bind, Walk.
  destruct (reads w root) as [-> _]. rewrite Ht.
  pose proof (walk_walked fault reads t root [] w) as Hw.
  remember (walk fault (cleanupWalkFn fault) root t [] w) as o eqn:Eo.
  destruct Hw as [w1 Hl Hc|code dirs' w1 before call after wf Hp Hl Hc Hf]; simpl.
  - pose proof (removeDirs_ran (dirs_of (visits root t))
                  (List.length (dirs_of (visits root t))) (le_n _) w1) as Hr.
    rewrite firstn_all in Hr.
    remember (removeDirs fault _ _ w1) as o1 eqn:Eo1.
    destruct Hr as [w' Hl' Hc'|code w' before call after wf Hp Hl' Hc' Hf].
    + apply ran_all; [|congruence].
      rewrite Hl', Hl. unfold phase_two. now rewrite <- app_assoc.
    + apply ran_until_failure with (code := code)
        (before := phase_one (visits root t) ++ before)
        (call := call) (after := after) (wf := wf);
        [ unfold phase_two; rewrite Hp; now rewrite <- app_assoc
        | rewrite Hl', Hl; now rewrite <- !app_assoc
        | congruence
        | exact Hf ].
  - apply ran_until_failure with (code := code) (before := before)
      (call := call) (after := after ++ phase_two (visits root t)) (wf := wf);
      [ rewrite Hp; now rewrite <- app_assoc | exact Hl | exact Hc | exact Hf ].
Qed.

(** When no call fails the cleanup returns, having issued both phases in
    full. *)
Lemma cleanup_returns (root : string) (t : node) (w : World) :
  no_fault fault ->
  lookup (resolve (cwd w) root) (fs w) = Some t ->
  exists w',
    cleanup fault root w = Ret tt w' /\
    log w' = log w ++ phase_one (visits root t) ++ phase_two (visits root t) /\
    cwd w' = cwd w.
Proof.
  intros Hno Ht. pose proof (cleanup_ran root t w Ht) as H.
  remember (cleanup fault root w) as o eqn:Eo.
  destruct H as [w' Hl Hc|code w' before call after wf Hp Hl Hc Hf].
  - now exists w'.
  - rewrite Hno in Hf. discriminate.
Qed.

End CleanupFacts.

Section OrderFacts.

Lemma dirs_of_app (vs1 vs2 : list (string * node)) :
  dirs_of (vs1 ++ vs2) = dirs_of vs1 ++ dirs_of vs2.
Proof. unfold dirs_of. now rewrite filter_app, map_app. Qed.

Lemma descendants_app (path : string) (es1 es2 : list (string * node)) :
  descendants path (es1 ++ es2) = descendants path es1 ++ descendants path es2.
Proof. unfold descendants. apply flat_map_app. Qed.

(** The walk is top-down: what lies below a directory is visited right
    after the directory, in one block. *)
Lemma visits_block (t : node) :
  forall root d perm entries,
    In (d, Dir perm entries) (visits root t) ->
    exists pre post,
      visits root t = pre ++ (d, Dir perm entries) :: descendants d entries ++ post.
Proof.
  induction t as [p|p es IH] using node_ind; intros root d perm entries Hin.
  - simpl in Hin. destruct Hin as [[=]|[]].
  - change (visits root (Dir p es)) with ((root, Dir p es) :: descendants root es) in *.
    destruct Hin as [[= <- <- <-]|Hin].
    + exists [], []. now rewrite app_nil_r.
    + unfold descendants in Hin. apply in_flat_map in Hin as ([name c] & Hc & Hin).
      simpl in Hin. apply in_split in Hc as (es1 & es2 & ->).
      apply Forall_app in IH as [_ IH]. apply Forall_cons_iff in IH as [IH _].
      simpl in IH. destruct (IH _ _ _ _ Hin) as (pre & post & E).
      exists ((root, Dir p (es1 ++ (name, c) :: es2)) :: descendants root es1 ++ pre),
             (post ++ descendants root es2).
      rewrite descendants_app.
      change (descendants root ((name, c) :: es2))
        with (visits (Join root name) c ++ descendants root es2).
      rewrite E. simpl. rewrite <- !app_assoc. simpl.
      now rewrite <- app_assoc.
Qed.

(** In the calls of a whole cleanup, the call that removes a directory
    comes after the calls that remove what lies below it. *)
Lemma removal_order (vs pre post : list (string * node)) (d : string)
    (perm : FileMode) (entries : list (string * node)) :
  vs = pre ++ (d, Dir perm entries) :: descendants d entries ++ post ->
  exists before after,
    phase_one vs ++ phase_two vs = before ++ SysRemoveAll d :: after /\
    before = phase_one vs ++
             map SysRemoveAll (rev (dirs_of post) ++ rev (dirs_of (descendants d entries))) /\
    after = map SysRemoveAll (rev (dirs_of pre)) /\
    forall v, In v (descendants d entries) -> In (removal v) before.
Proof.
  intros E. eexists _, _. split; [|split; [reflexivity|split; [reflexivity|]]].
  - unfold phase_two. rewrite E at 2.
    rewrite dirs_of_app. change ((d, Dir perm entries) :: descendants d entries ++ post)
      with ([(d, Dir perm entries)] ++ descendants d entries ++ post).
    rewrite !dirs_of_app. change (dirs_of [(d, Dir perm entries)]) with [d].
    rewrite !rev_app_distr. simpl. rewrite !map_app. simpl.
    now rewrite <- !app_assoc.
  - intros v Hv. apply in_or_app. unfold removal.
    destruct (is_dir (snd v)) eqn:Ev.
    + right. apply in_map, in_or_app. right. apply -> in_rev.
      unfold dirs_of. apply in_map. apply filter_In. auto.
    + left. unfold phase_one. apply in_map_iff. exists v. split.
      * unfold visit_call. now rewrite Ev.
      * rewrite E. apply in_or_app. right. right. apply in_or_app. now left.
Qed.

Lemma split_at_unique (x : syscall) (b0 a0 b a : list syscall) :
  ~ In x b0 -> ~ In x a0 ->
  b ++ x :: a = b0 ++ x :: a0 -> b = b0.
Proof.
  revert b. induction b0 as [|y b0 IH]; intros b Hb Ha E.
  - destruct b as [|z b]; [reflexivity|].
    simpl in E. injection E as -> E. exfalso. apply Ha. rewrite <- E.
    apply in_or_app. right. now left.
  - destruct b as [|z b]; simpl in E; injection E as E1 E2.
    + exfalso. apply Hb. now left.
    + subst z. f_equal. apply IH; auto. intros H. apply Hb. now right.
Qed.

Lemma NoDup_dirs_of (vs : list (string * node)) :
  NoDup (map fst vs) -> NoDup (dirs_of vs).
Proof.
  unfold dirs_of. induction vs as [|v vs IH]; simpl; intros H; [constructor|].
  apply NoDup_cons_iff in H as [Hv H].
  destruct (is_dir (snd v)); [|now apply IH].
  simpl. constructor; [|now apply IH].
  intros Hin. apply Hv. apply in_map_iff in Hin as (u & Hu & Hin).
  apply filter_In in Hin as [Hin _]. apply in_map_iff. now exists u.
Qed.

Lemma visit_call_not_RemoveAll (vs : list (string * node)) (d : string) :
  ~ In (SysRemoveAll d) (phase_one vs).
Proof.
  unfold phase_one. intros H. apply in_map_iff in H as (v & Hv & _).
  unfold visit_call in Hv. destruct (is_dir (snd v)); discriminate.
Qed.

(** When the visited paths are pairwise distinct, a directory is removed
    once, so that wherever its removal stands among the calls, the
    removals of what lies below it stand before. *)
Lemma removal_only_after (vs pre post : list (string * node)) (d : string)
    (perm : FileMode) (entries : list (string * node)) :
  vs = pre ++ (d, Dir perm entries) :: descendants d entries ++ post ->
  NoDup (map fst vs) ->
  forall b a,
    phase_one vs ++ phase_two vs = b ++ SysRemoveAll d :: a ->
    forall v, In v (descendants d entries) -> In (removal v) b.
Proof.
  intros E Hnd b a Hsplit.
  destruct (removal_order vs pre post d perm entries E)
    as (b0 & a0 & Hsplit0 & Hb0 & Ha0 & Hdesc).
  assert (Hd : NoDup (dirs_of pre ++ d :: dirs_of (descendants d entries) ++ dirs_of post)).
  { apply NoDup_dirs_of in Hnd. rewrite E in Hnd.
    rewrite dirs_of_app in Hnd.
    change ((d, Dir perm entries) :: descendants d entries ++ post)
      with ([(d, Dir perm entries)] ++ descendants d entries ++ post) in Hnd.
    now rewrite !dirs_of_app in Hnd. }
  apply NoDup_remove_2 in Hd.
  assert (Hinj : forall l, In (SysRemoveAll d) (map SysRemoveAll l) -> In d l).
  { intros l H. apply in_map_iff in H as (x & [= ->] & H). exact H. }
  replace b with b0; [exact Hdesc|]. symmetry.
  apply (split_at_unique (SysRemoveAll d) b0 a0 b a).
  - rewrite Hb0. intros H. apply in_app_or in H as [H|H].
    + now apply visit_call_not_RemoveAll in H.
    + apply Hinj in H. apply Hd. apply in_or_app. right.
      apply in_app_or in H as [H|H]; apply in_rev in H; apply in_or_app; auto.
  - rewrite Ha0. intros H. apply Hinj in H. apply in_rev in H.
    apply Hd. apply in_or_app. now left.
  - now rewrite <- Hsplit0.
Qed.

End OrderFacts.

Section TreeFacts.

Lemma find_entry_altered (name : string) (g : node -> option node)
    (entries : list (string * node)) (c' : node) :
  find_entry name (alter_entries name g entries) = Some c' ->
  exists c, g c = Some c'.
Proof.
  induction entries as [|[k c] es IH]; simpl; [discriminate|].
  destruct (String.eqb k name) eqn:Ek.
  - destruct (g c) as [c''|] eqn:Eg; [|exact IH].
    simpl. rewrite Ek. intros [= <-]. now exists c.
  - simpl. rewrite Ek. exact IH.
Qed.

Lemma lookup_after_remove (p : list string) :
  p <> [] ->
  forall t t', alter (fun _ => None) p t = Some t' -> lookup p t' = None.
Proof.
  induction p as [|name p IH]; intros Hp t t' E; [congruence|].
  destruct t as [perm|perm es]; simpl in E; injection E as <-; [reflexivity|].
  simpl. destruct (find_entry name _) as [c'|] eqn:Ef; [|reflexivity].
  apply find_entry_altered in Ef as (c & Ec).
  destruct p as [|n p]; [discriminate|].
  now apply (IH ltac:(discriminate) c).
Qed.

(** An entry that was removed is not found any more. *)
Lemma lookup_tree_remove (p : list string) (t : node) :
  p <> [] -> lookup p (tree_remove p t) = None.
Proof.
  intros Hp. unfold tree_remove, alter_root.
  destruct (alter (fun _ => None) p t) as [t'|] eqn:E.
  - now apply (lookup_after_remove p Hp t).
  - destruct p; [congruence|]. destruct t; discriminate.
Qed.

End TreeFacts.

Section RemovalFacts.

Variable fault : World -> syscall -> option nat.
Hypothesis quiet : no_fault fault.

Lemma removeDirs_removes_first (dirs : list string) (n : nat) :
  (0 < n)%nat ->
  forall w,
    resolve (cwd w) (nth 0 dirs ""%string) <> [] ->
    exists w',
      removeDirs fault dirs n w = Ret tt w' /\
      cwd w' = cwd w /\
      lookup (resolve (cwd w) (nth 0 dirs ""%string)) (fs w') = None.
Proof.
  induction n as [|i IH]; intros Hn w Hp; [lia|].
  simpl. unfold bind, os_RemoveAll, os_call. rewrite quiet.
  destruct i as [|i].
  - eexists. split; [reflexivity|]. split; [reflexivity|].
    simpl. now apply lookup_tree_remove.
  - set (w1 := with_fs _ _).
    destruct (IH ltac:(lia) w1 Hp) as (w' & E & Hc & Hl).
    exists w'. repeat split; assumption.
Qed.

Hypothesis reads : reads_succeed fault.

(** When no call fails, the cleanup of a directory returns and the
    directory is not found any more. *)
Lemma cleanup_removes_root (root : string) (perm : FileMode)
    (entries : list (string * node)) (w : World) :
  lookup (resolve (cwd w) root) (fs w) = Some (Dir perm entries) ->
  resolve (cwd w) root <> [] ->
  exists w',
    cleanup fault root w = Ret tt w' /\
    cwd w' = cwd w /\
    lookup (resolve (cwd w') root) (fs w') = None.
Proof.
  intros Ht Hp. unfold cleanup, bind, Walk.
  destruct (reads w root) as [-> _]. rewrite Ht.
  pose proof (walk_walked fault reads (Dir perm entries) root [] w) as Hw.
  remember (walk fault (cleanupWalkFn fault) root (Dir perm entries) [] w) as o eqn:Eo.
  destruct Hw as [w1 Hl Hc|code dirs' w1 before call after wf Hp' Hl Hc Hf].
  - simpl.
    destruct (removeDirs_removes_first
                (root :: dirs_of (descendants root entries))
                (S (List.length (dirs_of (descendants root entries))))
                ltac:(lia) w1) as (w' & E & Hc' & Hl').
    { simpl. now rewrite Hc. }
    exists w'. split; [exact E|]. split; [congruence|].
    simpl in Hl'. now rewrite Hc', Hc in *.
  - rewrite quiet in Hf. discriminate.
Qed.

End RemovalFacts.

Lemma ex_quiet_no_fault : no_fault ex_quiet.
Proof. intros w s. reflexivity. Qed.

Lemma ex_quiet_reads : reads_succeed ex_quiet.
Proof. intros w p. split; reflexivity. Qed.

(** C2.  The cleanup function that [TempInitDir] returns works in two
    phases over the tree found at the root.  Phase one walks the tree
    top-down (what lies below a directory is visited right after it): it
    sets each directory it visits to permission 0700 and records its path,
    and removes each entry that is not a directory at once.  Phase two
    removes the recorded directories in the reverse of the order of the
    visits.  The calls issued are those of phase one followed by those of
    phase two, cut short only by a call that fails; so a directory is
    removed only after everything below it was removed. *)
Theorem cleanup_two_phases (fault : World -> syscall -> option nat)
    (temp_name : World -> string) (w0 w1 : World) (root : string)
    (teardown : M unit) (err : option error) :
  TempInitDir fault temp_name w0 = Ret (root, Some teardown, err) w1 ->
  reads_succeed fault ->
  forall (w : World) (t : node),
    lookup (resolve (cwd w) root) (fs w) = Some t ->
    phase_one (visits root t) =
      map (fun v => if is_dir (snd v) then SysChmod (fst v) 448
                    else SysRemove (fst v)) (visits root t) /\
    phase_two (visits root t) =
      map SysRemoveAll
          (rev (map fst (filter (fun v => is_dir (snd v)) (visits root t)))) /\
    ran fault (phase_one (visits root t) ++ phase_two (visits root t)) w (teardown w) /\
    (no_fault fault ->
     exists w',
       teardown w = Ret tt w' /\
       log w' = log w ++ phase_one (visits root t) ++ phase_two (visits root t)) /\
    (forall d perm entries,
       In (d, Dir perm entries) (visits root t) ->
       exists pre post before after,
         visits root t = pre ++ (d, Dir perm entries) :: descendants d entries ++ post /\
         phase_one (visits root t) ++ phase_two (visits root t)
           = before ++ SysRemoveAll d :: after /\
         (forall v, In v (descendants d entries) -> In (removal v) before) /\
         (NoDup (map fst (visits root t)) ->
          forall b a,
            phase_one (visits root t) ++ phase_two (visits root t)
              = b ++ SysRemoveAll d :: a ->
            forall v, In v (descendants d entries) -> In (removal v) b)).
Proof.
  intros Hinit reads w t Ht.
  assert (Htd : teardown = cleanup fault root).
  { unfold TempInitDir, bind, ioutil_TempDir in Hinit.
    destruct (fault w0 SysTempDir); simpl in Hinit.
    - unfold os_RemoveAll, os_call in Hinit.
      destruct (fault _ _); discriminate.
    - injection Hinit; intros; subst; reflexivity. }
  subst teardown.
  split; [reflexivity|]. split; [reflexivity|].
  split; [now apply cleanup_ran|]. split.
  - intros quiet. destruct (cleanup_returns fault reads root t w quiet Ht)
      as (w' & E & Hl & _). now exists w'.
  - intros d perm entries Hin.
    destruct (visits_block t root d perm entries Hin) as (pre & post & E).
    destruct (removal_order _ pre post d perm entries E)
      as (before & after & Hsplit & _ & _ & Hdesc).
    exists pre, post, before, after. repeat split; try assumption.
    intros Hnd. now apply (removal_only_after _ pre post d perm entries E Hnd).
Qed.

(** The cleanup of "/tmp/fst1" populated as in [ex_populated]. *)
Lemma cleanup_two_phases_witness :
  TempInitDir ex_quiet ex_temp_name ex_world
    = Ret ("/tmp/fst1"%string, Some (cleanup ex_quiet "/tmp/fst1"), None)
          (final (TempInitDir ex_quiet ex_temp_name ex_world)) /\
  lookup (resolve (cwd ex_populated) "/tmp/fst1") (fs ex_populated) = Some ex_tree /\
  exists w',
    cleanup ex_quiet "/tmp/fst1" ex_populated = Ret tt w' /\
    log w' = [SysTempDir;
              SysChmod "/tmp/fst1" 448; SysRemove "/tmp/fst1/a";
              SysChmod "/tmp/fst1/ro" 448; SysRemove "/tmp/fst1/ro/b";
              SysRemoveAll "/tmp/fst1/ro"; SysRemoveAll "/tmp/fst1"]%string.
Proof.
  split; [reflexivity|]. split; [reflexivity|].
  exact (proj1 (proj2 (proj2 (proj2
           (cleanup_two_phases ex_quiet ex_temp_name ex_world _ "/tmp/fst1"
              (cleanup ex_quiet "/tmp/fst1") None eq_refl ex_quiet_reads
              ex_populated ex_tree eq_refl))))
           ex_quiet_no_fault).
Defined.

Section LifecycleClaims.

Variable fault : World -> syscall -> option nat.
Variable temp_name : World -> string.
Variable TreeCopy : string -> string -> M (option error).
Variable Config : Type.
Variable TreeCreate : Config -> M (option error).

(** Runs an operation along the steps whose outcomes are among the
    hypotheses. *)
Ltac run_steps :=
  unfold TempCreateChdir, TempCloneChdir, TempInitChdir, TempCloneDir,
         TempInitDir, bind, ret, call_cleanup, cleans_up_then_fails;
  repeat match goal with
         | H : ?step = Ret _ _ |- context [?step] => rewrite H; cbn beta iota
         end.

Ltac finish_with_cleanup root w :=
  destruct (cleanup fault root w) as [[] ?|?|?]; reflexivity.

(** C1.  Once the temporary directory was created, a later step of a
    multi-step operation that fails (the tree copy, [Getwd], [Chdir] or
    the tree creation) makes the operation call the cleanup function it
    holds and then return the empty path, a nil cleanup function and the
    error of the step; should the cleanup function itself end the process
    (it calls [log.Fatalln] when one of its own calls fails), the
    operation ends there.  For the last step of [TempCreateChdir] the
    cleanup function held is the composite one, which changes back to the
    former working directory first.  When no call fails, a clone whose
    tree copy failed returns with the directory not found any more.
    [root] is the directory created in [w1]. *)
Theorem failure_runs_cleanup (w w1 : World) (root : string) :
  ioutil_TempDir fault temp_name w = Ret (root, None) w1 ->
  (* TempCloneDir *)
  (forall src e w2,
     TreeCopy src root w1 = Ret (Some e) w2 ->
     cleans_up_then_fails (TempCloneDir fault temp_name TreeCopy src w)
       (cleanup fault root) w2 e) /\
  (* TempInitChdir *)
  (forall wd e w2,
     os_Getwd fault w1 = Ret (wd, Some e) w2 ->
     cleans_up_then_fails (TempInitChdir fault temp_name w)
       (cleanup fault root) w2 e) /\
  (forall wd w2 e w3,
     os_Getwd fault w1 = Ret (wd, None) w2 ->
     os_Chdir fault root w2 = Ret (Some e) w3 ->
     cleans_up_then_fails (TempInitChdir fault temp_name w)
       (cleanup fault root) w3 e) /\
  (* TempCloneChdir *)
  (forall src e w2,
     TreeCopy src root w1 = Ret (Some e) w2 ->
     cleans_up_then_fails (TempCloneChdir fault temp_name TreeCopy src w)
       (cleanup fault root) w2 e) /\
  (forall src w2 wd e w3,
     TreeCopy src root w1 = Ret None w2 ->
     os_Getwd fault w2 = Ret (wd, Some e) w3 ->
     cleans_up_then_fails (TempCloneChdir fault temp_name TreeCopy src w)
       (cleanup fault root) w3 e) /\
  (forall src w2 wd w3 e w4,
     TreeCopy src root w1 = Ret None w2 ->
     os_Getwd fault w2 = Ret (wd, None) w3 ->
     os_Chdir fault root w3 = Ret (Some e) w4 ->
     cleans_up_then_fails (TempCloneChdir fault temp_name TreeCopy src w)
       (cleanup fault root) w4 e) /\
  (* TempCreateChdir *)
  (forall config wd e w2,
     os_Getwd fault w1 = Ret (wd, Some e) w2 ->
     cleans_up_then_fails (TempCreateChdir fault temp_name Config TreeCreate config w)
       (cleanup fault root) w2 e) /\
  (forall config wd w2 e w3,
     os_Getwd fault w1 = Ret (wd, None) w2 ->
     os_Chdir fault root w2 = Ret (Some e) w3 ->
     cleans_up_then_fails (TempCreateChdir fault temp_name Config TreeCreate config w)
       (cleanup fault root) w3 e) /\
  (forall config wd w2 w3 e w4,
     os_Getwd fault w1 = Ret (wd, None) w2 ->
     os_Chdir fault root w2 = Ret None w3 ->
     TreeCreate config w3 = Ret (Some e) w4 ->
     cleans_up_then_fails (TempCreateChdir fault temp_name Config TreeCreate config w)
       (_ <- os_Chdir fault wd ;; cleanup fault root) w4 e) /\
  (* a failed clone leaves no directory behind *)
  (forall src e w2 perm entries,
     TreeCopy src root w1 = Ret (Some e) w2 ->
     no_fault fault ->
     lookup (resolve (cwd w2) root) (fs w2) = Some (Dir perm entries) ->
     resolve (cwd w2) root <> [] ->
     exists w',
       TempCloneDir fault temp_name TreeCopy src w
         = Ret (""%string, None, Some e) w' /\
       lookup (resolve (cwd w') root) (fs w') = None).
Proof.
  intros Hdir.
  assert (Hgone : forall src e w2 perm entries,
     TreeCopy src root w1 = Ret (Some e) w2 ->
     no_fault fault ->
     lookup (resolve (cwd w2) root) (fs w2) = Some (Dir perm entries) ->
     resolve (cwd w2) root <> [] ->
     exists w',
       TempCloneDir fault temp_name TreeCopy src w
         = Ret (""%string, None, Some e) w' /\
       lookup (resolve (cwd w') root) (fs w') = None).
  { intros src e w2 perm entries Hcopy quiet Ht Hp.
    assert (reads : reads_succeed fault) by (intros v p; split; apply quiet).
    destruct (cleanup_removes_root fault quiet reads root perm entries w2 Ht Hp)
      as (w' & E & _ & Hl).
    exists w'. split; [|exact Hl]. run_steps. reflexivity. }
  split; [|split; [|split; [|split; [|split; [|split; [|split; [|split; [|split]]]]]]]];
    [| | | | | | | | |exact Hgone].
  - intros src e w2 Hcopy. run_steps. finish_with_cleanup root w2.
  - intros wd e w2 Hwd. run_steps. finish_with_cleanup root w2.
  - intros wd w2 e w3 Hwd Hcd. run_steps. finish_with_cleanup root w3.
  - intros src e w2 Hcopy. run_steps. finish_with_cleanup root w2.
  - intros src w2 wd e w3 Hcopy Hwd. run_steps. finish_with_cleanup root w3.
  - intros src w2 wd w3 e w4 Hcopy Hwd Hcd. run_steps. finish_with_cleanup root w4.
  - intros config wd e w2 Hwd. run_steps. finish_with_cleanup root w2.
  - intros config wd w2 e w3 Hwd Hcd. run_steps. finish_with_cleanup root w3.
  - intros config wd w2 w3 e w4 Hwd Hcd Hcreate. run_steps.
    destruct (os_Chdir fault wd w4) as [? w5|?|?]; [|reflexivity|reflexivity].
    finish_with_cleanup root w5.
Qed.

Lemma ran_issued (calls : list syscall) (w : World) (o : outcome unit) :
  ran fault calls w o ->
  exists issued rest,
    log (final o) = log w ++ issued /\ calls = issued ++ rest /\
    cwd (final o) = cwd w.
Proof.
  intros [w' Hl Hc|code w' before call after wf Hp Hl Hc Hf]; simpl.
  - exists calls, []. now rewrite app_nil_r.
  - exists (before ++ [call]), after. rewrite Hp, <- app_assoc. auto.
Qed.

Lemma restores_then_cleans_composite (wd root : string) :
  restores_then_cleans fault (_ <- os_Chdir fault wd ;; cleanup fault root) wd root.
Proof.
  intros v. unfold bind.
  assert (Hcd : exists err v1,
            os_Chdir fault wd v = Ret err v1 /\
            log v1 = log v ++ [SysChdir wd] /\
            (err = None -> cwd v1 = absolute (cwd v) wd)).
  { unfold os_Chdir, os_call. destruct (fault v (SysChdir wd)) as [code|].
    - eexists _, _. split; [reflexivity|]. split; [reflexivity|]. discriminate.
    - eexists _, _. split; [reflexivity|]. split; reflexivity. }
  destruct Hcd as (err & v1 & Hcd & Hlog & Hcwd).
  exists err, v1. rewrite Hcd.
  split; [reflexivity|]. split; [exact Hlog|]. split; [exact Hcwd|].
  split; [reflexivity|]. split.
  - intros t reads Ht.
    destruct (ran_issued _ _ _ (cleanup_ran fault reads root t v1 Ht))
      as (issued & rest & Hl & Hp & _).
    exists issued, rest. split; [|exact Hp].
    rewrite Hl, Hlog. now rewrite <- app_assoc.
  - intros perm entries quiet Ht Hp.
    assert (reads : reads_succeed fault) by (intros w p; split; apply quiet).
    destruct (cleanup_removes_root fault quiet reads root perm entries v1 Ht Hp)
      as (w' & E & Hc & Hgone).
    exists w'. split; [exact E|]. split; [|exact Hgone].
    rewrite Hc. apply Hcwd.
    unfold os_Chdir, os_call in Hcd. rewrite quiet in Hcd. now injection Hcd.
Qed.

(** C8.  The cleanup function that [TempInitChdir] and [TempCloneChdir]
    return is a composite: it first changes the working directory back to
    the one captured by [Getwd], and only then calls the cleanup function
    of the temporary directory, which removes it. *)
Theorem chdir_teardown_restores_first (w w1 w2 w3 : World) (root wd : string) :
  ioutil_TempDir fault temp_name w = Ret (root, None) w1 ->
  (os_Getwd fault w1 = Ret (wd, None) w2 ->
   os_Chdir fault root w2 = Ret None w3 ->
   exists teardown,
     TempInitChdir fault temp_name w = Ret (wd, Some teardown, None) w3 /\
     restores_then_cleans fault teardown wd root) /\
  (forall src wc,
     TreeCopy src root w1 = Ret None wc ->
     os_Getwd fault wc = Ret (wd, None) w2 ->
     os_Chdir fault root w2 = Ret None w3 ->
     exists teardown,
       TempCloneChdir fault temp_name TreeCopy src w = Ret (wd, Some teardown, None) w3 /\
       restores_then_cleans fault teardown wd root).
Proof.
  intros Hdir. split.
  - intros Hwd Hcd. eexists. split.
    + run_steps. reflexivity.
    + apply restores_then_cleans_composite.
  - intros src wc Hcopy Hwd Hcd. eexists. split.
    + run_steps. reflexivity.
    + apply restores_then_cleans_composite.
Qed.

End LifecycleClaims.

(** A clone whose tree copy fails: the directory "/tmp/fst1" that was
    created is removed again before the failure is returned. *)
Lemma failure_runs_cleanup_witness :
  ioutil_TempDir ex_quiet ex_temp_name ex_world
    = Ret ("/tmp/fst1"%string, None)
          (final (ioutil_TempDir ex_quiet ex_temp_name ex_world)) /\
  ex_TreeCopy_fails "src" "/tmp/fst1"
      (final (ioutil_TempDir ex_quiet ex_temp_name ex_world))
    = Ret (Some (Errno 13)) (final (ioutil_TempDir ex_quiet ex_temp_name ex_world)) /\
  TempCloneDir ex_quiet ex_temp_name ex_TreeCopy_fails "src" ex_world
    = Ret (""%string, None, Some (Errno 13))
          {| fs := fs ex_world; cwd := cwd ex_world;
             log := [SysTempDir; SysChmod "/tmp/fst1" 448;
                     SysRemoveAll "/tmp/fst1"]%string |}.
Proof.
  split; [reflexivity|]. split; [reflexivity|].
  exact (proj1 (failure_runs_cleanup ex_quiet ex_temp_name ex_TreeCopy_fails
                  unit ex_TreeCreate_fails ex_world _ "/tmp/fst1" eq_refl)
           "src"%string (Errno 13) _ eq_refl).
Defined.

(** A clone with change of directory, from "/home/u". *)
Lemma chdir_teardown_restores_first_witness :
  exists teardown,
    TempCloneChdir ex_quiet ex_temp_name ex_TreeCopy "src" ex_world
      = Ret ("/home/u"%string, Some teardown, None)
            {| fs := fs ex_populated; cwd := "/tmp/fst1";
               log := [SysTempDir; SysGetwd; SysChdir "/tmp/fst1"]%string |} /\
    restores_then_cleans ex_quiet teardown "/home/u" "/tmp/fst1".
Proof.
  exact (proj2 (chdir_teardown_restores_first ex_quiet ex_temp_name ex_TreeCopy
                  ex_world _ _ _ "/tmp/fst1" "/home/u" eq_refl)
           "src"%string _ eq_refl eq_refl eq_refl).
Defined.

(* ================================================================== *)
(** * Further properties of the comparators *)
(* ================================================================== *)

Section ModeFacts.

Lemma Perm_mod (m : FileMode) : Perm m = m mod 512.
Proof.
  unfold Perm, ModePerm. change 511 with (Z.ones 9).
  now rewrite Z.land_ones by lia.
Qed.

Lemma ByPerm_mod (a b : FileInfoPath) :
  ByPerm a b = (Mode a mod 512 <? Mode b mod 512).
Proof. unfold ByPerm. now rewrite !Perm_mod. Qed.

Lemma type_bit_not_regular (m : FileMode) (n : Z) :
  In n type_bits -> Z.testbit m n = true -> IsRegular m = false.
Proof.
  intros Hn Hbit. unfold IsRegular. apply Z.eqb_neq. intros H0.
  assert (Hland : Z.testbit (Z.land m ModeType) n = true).
  { rewrite Z.land_spec, Hbit.
    unfold type_bits in Hn. simpl in Hn.
    destruct Hn as [<-|[<-|[<-|[<-|[<-|[<-|[<-|[]]]]]]]]; reflexivity. }
  rewrite H0, Z.bits_0 in Hland. discriminate.
Qed.



End ModeFacts.

(** X1.  [ByPerm] only looks at the low nine bits of the two modes: it
    compares the modes modulo 512, so descriptors whose modes agree on
    these bits rank alike, whatever their type bits and other flags. *)
Theorem ByPerm_low_nine_bits (a b : FileInfoPath) :
  (ByPerm a b = true <-> Mode a mod 512 < Mode b mod 512) /\
  (forall a' b',
     Mode a' mod 512 = Mode a mod 512 ->
     Mode b' mod 512 = Mode b mod 512 ->
     ByPerm a' b' = ByPerm a b).
Proof.
  split.
  - rewrite ByPerm_mod. apply Z.ltb_lt.
  - intros a' b' Ha Hb. rewrite !ByPerm_mod. now rewrite Ha, Hb.
Qed.

(** A directory with rwxr-xr-x against plain permission bits 0644. *)
Lemma ByPerm_low_nine_bits_witness :
  ByPerm (ex_entry "d" true (Z.lor ModeDir 493) 0 0) (ex_entry "f" false 420 0 0)
  = ByPerm (ex_entry "d" false 493 0 0) (ex_entry "f" false (Z.lor ModeSymlink 420) 0 0).
Proof.
  apply (proj2 (ByPerm_low_nine_bits (ex_entry "d" false 493 0 0)
                  (ex_entry "f" false (Z.lor ModeSymlink 420) 0 0)));
    reflexivity.
Defined.

(** X2.  [BySize] answers false as soon as one of the two modes has a
    type bit set (directory, symbolic link, named pipe, socket, device,
    character device, irregular file), whatever the sizes; between two
    regular files it is the comparison of the sizes. *)
Theorem BySize_only_between_regular_files (a b : FileInfoPath) :
  (forall n, In n type_bits ->
     Z.testbit (Mode a) n = true \/ Z.testbit (Mode b) n = true ->
     BySize a b = false) /\
  (IsRegular (Mode a) = true -> IsRegular (Mode b) = true ->
   BySize a b = (Size a <? Size b)).
Proof.
  unfold BySize. split.
  - intros n Hn [H|H]; rewrite (type_bit_not_regular _ n Hn H).
    + reflexivity.
    + now rewrite andb_false_r.
  - intros -> ->. reflexivity.
Qed.

(** An empty regular file against a directory of 4096 bytes. *)
Lemma BySize_only_between_regular_files_witness :
  BySize (ex_entry "f" false 420 0 0) (ex_entry "d" true (Z.lor ModeDir 493) 4096 0)
  = false.
Proof.
  apply (proj1 (BySize_only_between_regular_files (ex_entry "f" false 420 0 0)
                  (ex_entry "d" true (Z.lor ModeDir 493) 4096 0)) 31).
  - simpl. tauto.
  - right. reflexivity.
Defined.







Section ChainFacts.

Context {R : Type}.

Lemma Less_lift (a b : FileInfoPath) (fs : list (FileInfoPath -> FileInfoPath -> bool)) :
  Less (R := R) a b (map lift fs) = Done (existsb (fun f => f a b) fs).
Proof.
  induction fs as [|f fs IH]; simpl; [reflexivity|].
  unfold lift at 1. destruct (f a b); simpl; [reflexivity|exact IH].
Qed.

Lemma existsb_Permutation {A : Type} (p : A -> bool) (l l' : list A) :
  Permutation l l' -> existsb p l = existsb p l'.
Proof.
  induction 1 as [|x l l' _ IH|x y l|l l' l'' _ IH1 _ IH2]; simpl.
  - reflexivity.
  - now rewrite IH.
  - destruct (p x), (p y); reflexivity.
  - congruence.
Qed.

Lemma Less_skip (a b : FileInfoPath) (pre post : list (FileRank R)) :
  Forall (fun f => f a b = Done false) pre ->
  Less a b (pre ++ post) = Less a b post.
Proof.
  induction 1 as [|f pre Hf _ IH]; simpl; [reflexivity|]. now rewrite Hf.
Qed.

End ChainFacts.

(** X6.  On a chain of rank functions that do not abort, [Less] is the
    disjunction of their answers; so the order of such a chain does not
    matter: any rearrangement of it gives the same result. *)
Theorem Less_is_a_disjunction {R : Type} (a b : FileInfoPath)
    (fs : list (FileInfoPath -> FileInfoPath -> bool)) :
  Less (R := R) a b (map lift fs) = Done (existsb (fun f => f a b) fs) /\
  (forall fs', Permutation fs fs' ->
     Less (R := R) a b (map lift fs') = Less a b (map lift fs)).
Proof.
  split; [apply Less_lift|].
  intros fs' Hp. rewrite !Less_lift. f_equal. symmetry.
  now apply existsb_Permutation.
Qed.

(** The chains [ByDir; ByName] and [ByName; ByDir]. *)
Lemma Less_is_a_disjunction_witness :
  Less (R := error) (ex_file "a" 0 0) (ex_dir "z") [lift ByName; lift ByDir]
  = Less (ex_file "a" 0 0) (ex_dir "z") [lift ByDir; lift ByName].
Proof.
  exact (proj2 (Less_is_a_disjunction (R := error) (ex_file "a" 0 0) (ex_dir "z")
                  [ByDir; ByName]) [ByName; ByDir] (perm_swap _ _ _)).
Defined.

(** X7.  The chain [ByDir; ByName] can rank two descriptors below each
    other: a directory ranks below a file by [ByDir], and the file ranks
    below the directory by [ByName] when its name is the smaller one. *)
Theorem Less_ByDir_ByName_both_ways {R : Type} (a b : FileInfoPath) :
  IsDir a = true -> IsDir b = false -> ByName b a = true ->
  Less (R := R) a b [lift ByDir; lift ByName] = Done true /\
  Less (R := R) b a [lift ByDir; lift ByName] = Done true.
Proof.
  intros Ha Hb Hn. simpl. unfold lift, ByDir. rewrite Ha, Hb, Hn. now split.
Qed.

Lemma Less_ByDir_ByName_both_ways_witness :
  Less (R := error) (ex_dir "z") (ex_file "a" 0 0) [lift ByDir; lift ByName]
    = Done true /\
  Less (R := error) (ex_file "a" 0 0) (ex_dir "z") [lift ByDir; lift ByName]
    = Done true.
Proof.
  exact (Less_ByDir_ByName_both_ways (R := error) (ex_dir "z") (ex_file "a" 0 0)
           eq_refl eq_refl eq_refl).
Defined.

(** X8.  [Less] passes over the rank functions that return false: the
    result is that of the rest of the chain.  So when the first function
    that does not return false aborts the test, [Less] does not return
    either, whatever follows in the chain. *)
Theorem Less_first_decisive {R : Type} (a b : FileInfoPath)
    (pre post : list (FileRank R)) :
  Forall (fun f => f a b = Done false) pre ->
  Less a b (pre ++ post) = Less a b post /\
  (forall f r, f a b = Aborted r -> Less a b (pre ++ f :: post) = Aborted r).
Proof.
  intros Hpre. split; [now apply Less_skip|].
  intros f r Hf. rewrite Less_skip by assumption. simpl. now rewrite Hf.
Qed.

(** The file "missing" does not open: [ByContent] aborts after [ByName]
    returned false, and [ByDir], which would return true, is not asked. *)
Lemma Less_first_decisive_witness :
  Less (ex_dir "missing") (ex_file "a" 0 0)
       [lift ByName; ByContent ex_Fatal ex_Open; lift ByDir]
  = Aborted (Errno 2).
Proof.
  exact (proj2 (Less_first_decisive (ex_dir "missing") (ex_file "a" 0 0)
                  [lift ByName] [lift ByDir]
                  (Forall_cons _ eq_refl (Forall_nil _)))
           (ByContent ex_Fatal ex_Open) (Errno 2) eq_refl).
Defined.

Section ContentOrderFacts.

Lemma byte_to_N_inj (x y : Byte.byte) : Byte.to_N x = Byte.to_N y -> x = y.
Proof.
  intros H. assert (E : Some x = Some y); [|now injection E].
  now rewrite <- (Byte.of_to_N x), <- (Byte.of_to_N y), H.
Qed.

Lemma byte_lt_flip (x y : Byte.byte) : x <> y -> byte_lt y x = negb (byte_lt x y).
Proof.
  intros Hxy. unfold byte_lt.
  assert (Hn : Byte.to_N x <> Byte.to_N y) by (intros H; now apply Hxy, byte_to_N_inj).
  destruct (N.ltb_spec (Byte.to_N x) (Byte.to_N y)),
           (N.ltb_spec (Byte.to_N y) (Byte.to_N x)); simpl; try reflexivity; lia.
Qed.

Lemma byte_eqb_sym (x y : Byte.byte) : Byte.eqb x y = Byte.eqb y x.
Proof.
  destruct (Byte.eqb x y) eqn:E.
  - apply Byte.byte_dec_bl in E. subst. now rewrite byte_eqb_refl.
  - symmetry. apply byte_eqb_neq. intros ->. now rewrite byte_eqb_refl in E.
Qed.

Lemma compare_loop_same (l r : Reader) :
  delivered l = delivered r -> compare_loop l r = false.
Proof.
  intros H. apply compare_loop_right_exhausted with (rest := []).
  now rewrite app_nil_r.
Qed.

Lemma compare_loop_flip (l r : Reader) :
  delivered l <> delivered r -> compare_loop r l = negb (compare_loop l r).
Proof.
  revert l. induction r as [er|rb r IH]; intros [el|lb l] H; simpl in *.
  - congruence.
  - reflexivity.
  - reflexivity.
  - rewrite (byte_eqb_sym rb lb). destruct (Byte.eqb lb rb) eqn:E.
    + apply Byte.byte_dec_bl in E. subst. apply IH. congruence.
    + assert (Hne : lb <> rb) by (intros ->; now rewrite byte_eqb_refl in E).
      rewrite (byte_lt_flip lb rb Hne).
      now destruct (byte_lt lb rb).
Qed.

Lemma compare_loop_trans (a b c : Reader) :
  compare_loop a b = true -> compare_loop b c = true -> compare_loop a c = true.
Proof.
  revert a b. induction c as [ec|cb c IH]; intros a b Hab Hbc.
  - now destruct b.
  - destruct b as [eb|bb b]; [discriminate|].
    destruct a as [ea|ab a]; [reflexivity|].
    simpl in *.
    destruct (Byte.eqb ab bb) eqn:E1; destruct (Byte.eqb bb cb) eqn:E2.
    + apply Byte.byte_dec_bl in E1, E2. subst. rewrite byte_eqb_refl.
      now apply (IH a b).
    + apply Byte.byte_dec_bl in E1. subst. now rewrite E2.
    + apply Byte.byte_dec_bl in E2. subst. now rewrite E1.
    + assert (L1 : byte_lt ab bb = true) by now destruct (byte_lt ab bb).
      assert (L2 : byte_lt bb cb = true) by now destruct (byte_lt bb cb).
      unfold byte_lt in *. apply N.ltb_lt in L1, L2.
      assert (L3 : (Byte.to_N ab < Byte.to_N cb)%N) by lia.
      rewrite byte_eqb_neq.
      * apply N.ltb_lt in L3. now rewrite L3.
      * intros ->. lia.
Qed.

End ContentOrderFacts.

Section ContentOrder.

Context {R : Type}.
Variable t_Fatal : error -> R.
Variable Open : string -> Reader + error.

(** X9.  On two files that open, and that deliver the same bytes each
    time they are opened, [ByContent] orders the contents totally: when
    the bytes read from the two files are the same it returns false in
    both directions, and when they are not it returns true in exactly one
    direction. *)
Theorem ByContent_orders_contents (left right : FileInfoPath)
    (leftBuf rightBuf : Reader) :
  Open (Path left) = inl leftBuf ->
  Open (Path right) = inl rightBuf ->
  (delivered leftBuf = delivered rightBuf ->
   ByContent t_Fatal Open left right = Done false /\
   ByContent t_Fatal Open right left = Done false) /\
  (delivered leftBuf <> delivered rightBuf ->
   exists less,
     ByContent t_Fatal Open left right = Done less /\
     ByContent t_Fatal Open right left = Done (negb less)).
Proof.
  intros Hl Hr. unfold ByContent. rewrite Hl, Hr. split.
  - intros H. now rewrite !compare_loop_same.
  - intros H. exists (compare_loop leftBuf rightBuf).
    now rewrite (compare_loop_flip _ _ H).
Qed.

(** X10.  [ByContent] is transitive on files that open and deliver the
    same bytes each time they are opened. *)
Theorem ByContent_transitive (a b c : FileInfoPath) (aBuf bBuf cBuf : Reader) :
  Open (Path a) = inl aBuf ->
  Open (Path b) = inl bBuf ->
  Open (Path c) = inl cBuf ->
  ByContent t_Fatal Open a b = Done true ->
  ByContent t_Fatal Open b c = Done true ->
  ByContent t_Fatal Open a c = Done true.
Proof.
  intros Ha Hb Hc. unfold ByContent. rewrite Ha, Hb, Hc.
  intros [= Hab] [= Hbc]. f_equal. now apply (compare_loop_trans aBuf bBuf cBuf).
Qed.

End ContentOrder.

Lemma ByContent_orders_contents_witness :
  exists less,
    ByContent ex_Fatal ex_Open (ex_file "aaa" 3 0) (ex_file "ab" 2 0) = Done less /\
    ByContent ex_Fatal ex_Open (ex_file "ab" 2 0) (ex_file "aaa" 3 0) = Done (negb less).
Proof.
  apply (proj2 (ByContent_orders_contents ex_Fatal ex_Open
                  (ex_file "aaa" 3 0) (ex_file "ab" 2 0) _ _ eq_refl eq_refl)).
  discriminate.
Defined.

Lemma ByContent_transitive_witness :
  ByContent ex_Fatal ex_Open (ex_file "a" 1 0) (ex_file "ab" 2 0) = Done true.
Proof.
  exact (ByContent_transitive ex_Fatal ex_Open
           (ex_file "a" 1 0) (ex_file "aaa" 3 0) (ex_file "ab" 2 0) _ _ _
           eq_refl eq_refl eq_refl eq_refl eq_refl).
Defined.

(* ================================================================== *)
(** * Further properties of the lifecycle *)
(* ================================================================== *)

Section LifecycleComposition.

Variable fault : World -> syscall -> option nat.
Variable temp_name : World -> string.
Variable TreeCopy : string -> string -> M (option error).
Variable Config : Type.
Variable TreeCreate : Config -> M (option error).

Lemma ioutil_TempDir_world (w w1 : World) (root : string) :
  ioutil_TempDir fault temp_name w = Ret (root, None) w1 ->
  root = temp_name w /\ cwd w1 = cwd w /\ log w1 = log w ++ [SysTempDir].
Proof.
  unfold ioutil_TempDir. destruct (fault w SysTempDir); [discriminate|].
  intros [= <- <-]. now repeat split.
Qed.

Lemma os_Getwd_world (w w1 : World) (wd : string) :
  os_Getwd fault w = Ret (wd, None) w1 ->
  wd = cwd w /\ w1 = issue SysGetwd w.
Proof.
  unfold os_Getwd. destruct (fault w SysGetwd); [discriminate|].
  intros [= <- <-]. now split.
Qed.

Lemma os_Chdir_world (w w1 : World) (dir : string) :
  os_Chdir fault dir w = Ret None w1 ->
  w1 = with_cwd (absolute (cwd w) dir) (issue (SysChdir dir) w).
Proof.
  unfold os_Chdir, os_call. destruct (fault w (SysChdir dir)); [discriminate|].
  now intros [= <-].
Qed.

Ltac run_along :=
  unfold TempCreateChdir, TempCloneChdir, TempInitChdir, TempCloneDir,
         TempInitDir, bind, ret, call_cleanup;
  repeat match goal with
         | H : ?step = Ret _ _ |- context [?step] => rewrite H; cbn beta iota
         end.

(** X11.  When [ioutil.TempDir] fails, [TempInitDir] calls [RemoveAll]
    on the empty path it received, drops the result of that call, and
    returns the empty path, a nil cleanup function and the error of
    [TempDir].  The four operations built on it return the same, in the
    same world: they make no further call, neither [Getwd] nor [Chdir],
    and run neither the tree copy nor the tree creation. *)
Theorem creation_failure_propagates (w : World) (code : nat) :
  fault w SysTempDir = Some code ->
  exists w',
    TempInitDir fault temp_name w = Ret (""%string, None, Some (Errno code)) w' /\
    log w' = log w ++ [SysTempDir; SysRemoveAll ""] /\
    cwd w' = cwd w /\
    TempInitChdir fault temp_name w = Ret (""%string, None, Some (Errno code)) w' /\
    (forall src,
       TempCloneDir fault temp_name TreeCopy src w
       = Ret (""%string, None, Some (Errno code)) w') /\
    (forall src,
       TempCloneChdir fault temp_name TreeCopy src w
       = Ret (""%string, None, Some (Errno code)) w') /\
    (forall config,
       TempCreateChdir fault temp_name Config TreeCreate config w
       = Ret (""%string, None, Some (Errno code)) w').
Proof.
  intros Hf.
  assert (Hinit : exists w',
            TempInitDir fault temp_name w = Ret (""%string, None, Some (Errno code)) w' /\
            log w' = log w ++ [SysTempDir; SysRemoveAll ""] /\
            cwd w' = cwd w).
  { unfold TempInitDir, bind, ioutil_TempDir, os_RemoveAll, os_call. rewrite Hf.
    destruct (fault (issue SysTempDir w) (SysRemoveAll "")); eexists;
      (split; [reflexivity|]); simpl; now rewrite <- app_assoc. }
  destruct Hinit as (w' & Hinit & Hlog & Hcwd).
  exists w'. split; [exact Hinit|]. split; [exact Hlog|]. split; [exact Hcwd|].
  repeat split; intros;
    unfold TempCreateChdir, TempCloneChdir, TempInitChdir, TempCloneDir, bind;
    rewrite Hinit; reflexivity.
Qed.

(** X12.  When every step succeeds, [TempInitChdir] returns the working
    directory the process was in, not the path of the new directory, and
    leaves the process in the new directory, having called [TempDir],
    [Getwd] and [Chdir] in this order. *)
Theorem TempInitChdir_enters_directory (w w1 w2 w3 : World) (root wd : string) :
  ioutil_TempDir fault temp_name w = Ret (root, None) w1 ->
  os_Getwd fault w1 = Ret (wd, None) w2 ->
  os_Chdir fault root w2 = Ret None w3 ->
  wd = cwd w /\
  (exists teardown,
     TempInitChdir fault temp_name w = Ret (cwd w, Some teardown, None) w3) /\
  cwd w3 = absolute (cwd w) root /\
  fs w3 = fs w1 /\
  log w3 = log w ++ [SysTempDir; SysGetwd; SysChdir root].
Proof.
  intros Hdir Hwd Hcd.
  destruct (ioutil_TempDir_world _ _ _ Hdir) as (_ & Hc1 & Hl1).
  destruct (os_Getwd_world _ _ _ Hwd) as (Ewd & E2).
  pose proof (os_Chdir_world _ _ _ Hcd) as E3.
  assert (Hwd' : wd = cwd w) by congruence.
  split; [exact Hwd'|]. split.
  - eexists. run_along. now rewrite Hwd'.
  - subst w3 w2. simpl. rewrite Hc1, Hl1. repeat split.
    now rewrite <- !app_assoc.
Qed.

(** X13.  When every step succeeds, [TempCreateChdir] runs the tree
    creation inside the new directory, and returns the former working
    directory with the composite cleanup function of [TempInitChdir],
    which changes back to that directory before it cleans the new one
    up. *)
Theorem TempCreateChdir_builds_inside (w w1 w2 w3 w4 : World) (root wd : string)
    (config : Config) :
  ioutil_TempDir fault temp_name w = Ret (root, None) w1 ->
  os_Getwd fault w1 = Ret (wd, None) w2 ->
  os_Chdir fault root w2 = Ret None w3 ->
  TreeCreate config w3 = Ret None w4 ->
  cwd w3 = absolute (cwd w) root /\
  exists teardown,
    TempCreateChdir fault temp_name Config TreeCreate config w
      = Ret (cwd w, Some teardown, None) w4 /\
    restores_then_cleans fault teardown (cwd w) root.
Proof.
  intros Hdir Hwd Hcd Hcreate.
  destruct (ioutil_TempDir_world _ _ _ Hdir) as (_ & Hc1 & _).
  destruct (os_Getwd_world _ _ _ Hwd) as (Ewd & E2).
  pose proof (os_Chdir_world _ _ _ Hcd) as E3.
  assert (Hwd' : wd = cwd w) by congruence.
  split.
  - subst w3 w2. simpl. now rewrite Hc1.
  - eexists. split.
    + run_along. rewrite Hwd'. reflexivity.
    + apply restores_then_cleans_composite.
Qed.

(** X14.  When every step succeeds, [TempCloneDir] returns the new
    directory with the very cleanup function of [TempInitDir]; the tree
    copy runs with the new directory as its destination, before the
    working directory is touched, and [TempCloneChdir] returns the working
    directory read after the copy and leaves the process in the new
    directory. *)
Theorem TempClone_copies_then_enters (w w1 w2 : World) (root src : string) :
  ioutil_TempDir fault temp_name w = Ret (root, None) w1 ->
  TreeCopy src root w1 = Ret None w2 ->
  cwd w1 = cwd w /\
  TempCloneDir fault temp_name TreeCopy src w
    = Ret (root, Some (cleanup fault root), None) w2 /\
  (forall wd w3 w4,
     os_Getwd fault w2 = Ret (wd, None) w3 ->
     os_Chdir fault root w3 = Ret None w4 ->
     wd = cwd w2 /\
     cwd w4 = absolute (cwd w2) root /\
     exists teardown,
       TempCloneChdir fault temp_name TreeCopy src w
         = Ret (cwd w2, Some teardown, None) w4 /\
       restores_then_cleans fault teardown (cwd w2) root).
Proof.
  intros Hdir Hcopy.
  destruct (ioutil_TempDir_world _ _ _ Hdir) as (_ & Hc1 & _).
  split; [exact Hc1|]. split.
  - run_along. reflexivity.
  - intros wd w3 w4 Hwd Hcd.
    destruct (os_Getwd_world _ _ _ Hwd) as (Ewd & E3).
    pose proof (os_Chdir_world _ _ _ Hcd) as E4.
    split; [exact Ewd|]. split.
    + subst w4 w3. reflexivity.
    + eexists. split.
      * run_along. rewrite Ewd. reflexivity.
      * apply restores_then_cleans_composite.
Qed.

End LifecycleComposition.

Lemma creation_failure_propagates_witness :
  exists w',
    TempCloneChdir ex_no_TempDir ex_temp_name ex_TreeCopy "src" ex_world
      = Ret (""%string, None, Some (Errno 28)) w' /\
    log w' = [SysTempDir; SysRemoveAll ""] /\
    cwd w' = cwd ex_world.
Proof.
  destruct (creation_failure_propagates ex_no_TempDir ex_temp_name ex_TreeCopy
              unit ex_TreeCreate_fails ex_world 28 eq_refl)
    as (w' & _ & Hlog & Hcwd & _ & _ & Hclone & _).
  exists w'. split; [apply Hclone|]. split; [exact Hlog|exact Hcwd].
Defined.

Lemma TempInitChdir_enters_directory_witness :
  exists teardown w3,
    TempInitChdir ex_quiet ex_temp_name ex_world
      = Ret ("/home/u"%string, Some teardown, None) w3 /\
    cwd w3 = "/tmp/fst1"%string.
Proof.
  destruct (TempInitChdir_enters_directory ex_quiet ex_temp_name
              ex_world _ _ _ "/tmp/fst1" "/home/u" eq_refl eq_refl eq_refl)
    as (_ & (teardown & E) & Hcwd & _).
  exists teardown. eexists. split; [exact E|exact Hcwd].
Defined.

Lemma TempCreateChdir_builds_inside_witness :
  exists teardown w4,
    TempCreateChdir ex_quiet ex_temp_name unit ex_TreeCreate tt ex_world
      = Ret ("/home/u"%string, Some teardown, None) w4 /\
    lookup ["tmp"; "fst1"; "a"]%string (fs w4) = Some (File 420) /\
    restores_then_cleans ex_quiet teardown "/home/u" "/tmp/fst1".
Proof.
  destruct (TempCreateChdir_builds_inside ex_quiet ex_temp_name unit ex_TreeCreate
              ex_world _ _ _ _ "/tmp/fst1" "/home/u" tt
              eq_refl eq_refl eq_refl eq_refl)
    as (_ & teardown & E & Hre).
  exists teardown. eexists. split; [exact E|]. split; [reflexivity|exact Hre].
Defined.

Lemma TempClone_copies_then_enters_witness :
  TempCloneDir ex_quiet ex_temp_name ex_TreeCopy "src" ex_world
  = Ret ("/tmp/fst1"%string, Some (cleanup ex_quiet "/tmp/fst1"), None)
        {| fs := fs ex_populated; cwd := "/home/u"; log := [SysTempDir] |}.
Proof.
  exact (proj1 (proj2 (TempClone_copies_then_enters ex_quiet ex_temp_name ex_TreeCopy
                         ex_world _ _ "/tmp/fst1" "src" eq_refl eq_refl))).
Defined.

Section CleanupEdges.

Variable fault : World -> syscall -> option nat.








(** X15.  The cleanup function must find its directory: when [Lstat] of
    the root fails, the walk hands a nil [os.FileInfo] to the walk
    function, which calls [IsDir] on it and panics, before any call is
    issued.  So the cleanup function cannot be called twice: once it has
    removed the directory, a second call panics. *)
Theorem cleanup_panics_without_root (root : string) (w : World) :
  (fault w (SysLstat root) <> None \/
   lookup (resolve (cwd w) root) (fs w) = None ->
   cleanup fault root w = Panic w) /\
  (forall perm entries,
     no_fault fault ->
     lookup (resolve (cwd w) root) (fs w) = Some (Dir perm entries) ->
     resolve (cwd w) root <> [] ->
     exists w',
       cleanup fault root w = Ret tt w' /\
       cleanup fault root w' = Panic w').
Proof.
  assert (Hpanic : forall v,
            fault v (SysLstat root) <> None \/
            lookup (resolve (cwd v) root) (fs v) = None ->
            cleanup fault root v = Panic v).
  { intros v H. unfold cleanup, bind, Walk.
    destruct (fault v (SysLstat root)) as [code|]; [reflexivity|].
    destruct H as [H|H]; [congruence|]. now rewrite H. }
  split; [apply Hpanic|].
  intros perm entries quiet Ht Hp.
  assert (reads : reads_succeed fault) by (intros v p; split; apply quiet).
  destruct (cleanup_removes_root fault quiet reads root perm entries w Ht Hp)
    as (w' & E & _ & Hgone).
  exists w'. split; [exact E|]. apply Hpanic. now right.
Qed.

Hypothesis reads : reads_succeed fault.


End CleanupEdges.

Lemma cleanup_panics_without_root_witness :
  exists w',
    cleanup ex_quiet "/tmp/fst1" ex_populated = Ret tt w' /\
    cleanup ex_quiet "/tmp/fst1" w' = Panic w'.
Proof.
  apply (proj2 (cleanup_panics_without_root ex_quiet "/tmp/fst1" ex_populated)
           448 [("a", File 420); ("ro", Dir 365 [("b", File 292)])]%string).
  - exact ex_quiet_no_fault.
  - reflexivity.
  - discriminate.
Defined.


Section EntryFacts.

Lemma find_entry_In (name : string) (entries : list (string * node)) (c : node) :
  find_entry name entries = Some c -> In (name, c) entries.
Proof.
  induction entries as [|[k c'] es IH]; simpl; [discriminate|].
  destruct (String.eqb_spec k name) as [->|Hk].
  - intros [= ->]. now left.
  - intros H. right. now apply IH.
Qed.

Lemma find_entry_absent (name : string) (entries : list (string * node)) (c : node) :
  find_entry name entries = None -> ~ In (name, c) entries.
Proof.
  induction entries as [|[k c'] es IH]; simpl; [tauto|].
  destruct (String.eqb_spec k name) as [->|Hk]; [discriminate|].
  intros H [[= -> _]|Hin]; [congruence|]. now apply IH.
Qed.

Lemma entry_unique (name : string) (entries : list (string * node)) (c c' : node) :
  NoDup (map fst entries) ->
  In (name, c) entries -> In (name, c') entries -> c = c'.
Proof.
  induction entries as [|[k x] es IH]; simpl; [tauto|].
  intros Hnd. apply NoDup_cons_iff in Hnd as [Hk Hnd].
  intros [H1|H1] [H2|H2].
  - congruence.
  - injection H1 as -> _. exfalso. apply Hk. apply in_map_iff. now exists (name, c').
  - injection H2 as -> _. exfalso. apply Hk. apply in_map_iff. now exists (name, c).
  - now apply IH.
Qed.

Lemma alter_entries_ext (name : string) (g g' : node -> option node)
    (entries : list (string * node)) :
  (forall c, In (name, c) entries -> g c = g' c) ->
  alter_entries name g entries = alter_entries name g' entries.
Proof.
  induction entries as [|[k c] es IH]; simpl; intros H; [reflexivity|].
  rewrite IH by (intros; apply H; now right).
  destruct (String.eqb_spec k name) as [->|Hk]; [|reflexivity].
  now rewrite (H c) by now left.
Qed.

Lemma alter_entries_id (name : string) (g : node -> option node)
    (entries : list (string * node)) :
  (forall c, In (name, c) entries -> g c = Some c) ->
  alter_entries name g entries = entries.
Proof.
  induction entries as [|[k c] es IH]; simpl; intros H; [reflexivity|].
  rewrite IH by (intros; apply H; now right).
  destruct (String.eqb_spec k name) as [->|Hk]; [|reflexivity].
  now rewrite (H c) by now left.
Qed.

Lemma alter_entries_compose (name : string) (f : node -> node)
    (g : node -> option node) (entries : list (string * node)) :
  alter_entries name g (alter_entries name (fun c => Some (f c)) entries)
  = alter_entries name (fun c => g (f c)) entries.
Proof.
  induction entries as [|[k c] es IH]; simpl; [reflexivity|].
  destruct (String.eqb k name) eqn:Ek; simpl; rewrite Ek, IH; reflexivity.
Qed.

Lemma find_entry_altered_total (name : string) (f : node -> node)
    (entries : list (string * node)) :
  find_entry name (alter_entries name (fun c => Some (f c)) entries)
  = option_map f (find_entry name entries).
Proof.
  induction entries as [|[k c] es IH]; simpl; [reflexivity|].
  destruct (String.eqb k name) eqn:Ek; simpl; now rewrite Ek.
Qed.

Lemma In_inserted (name : string) (c x : node) (entries : list (string * node)) :
  find_entry name entries = None ->
  In (name, x) (insert_entry name c entries) -> x = c.
Proof.
  induction entries as [|[k c'] es IH]; simpl.
  - intros _ [[= ->]|[]]. reflexivity.
  - destruct (String.eqb_spec k name) as [->|Hk]; [discriminate|].
    intros Hf. destruct (String.ltb name k).
    + intros [[= ->]|[[= E _]|Hin]]; [reflexivity|congruence|].
      exfalso. now apply (find_entry_absent name es x Hf).
    + intros [[= E _]|Hin]; [congruence|]. now apply IH.
Qed.

Lemma find_entry_inserted (name : string) (c : node) (entries : list (string * node)) :
  find_entry name entries = None ->
  find_entry name (insert_entry name c entries) = Some c.
Proof.
  induction entries as [|[k c'] es IH]; simpl.
  - now rewrite String.eqb_refl.
  - destruct (String.eqb k name) eqn:Ek; [discriminate|].
    intros Hf. destruct (String.ltb name k); simpl.
    + now rewrite String.eqb_refl.
    + rewrite Ek. now apply IH.
Qed.

Lemma remove_inserted (name : string) (c : node) (entries : list (string * node)) :
  find_entry name entries = None ->
  alter_entries name (fun _ => None) (insert_entry name c entries) = entries.
Proof.
  induction entries as [|[k c'] es IH]; simpl.
  - now rewrite String.eqb_refl.
  - destruct (String.eqb k name) eqn:Ek; [discriminate|].
    intros Hf. destruct (String.ltb name k); simpl.
    + rewrite String.eqb_refl, Ek. f_equal.
      apply alter_entries_id. intros x Hx.
      exfalso. now apply (find_entry_absent name es x Hf).
    + rewrite Ek. f_equal. now apply IH.
Qed.

Lemma tree_mkdir_cons (name : string) (p : list string) (perm m : FileMode)
    (entries : list (string * node)) :
  p <> [] ->
  tree_mkdir (name :: p) perm (Dir m entries)
  = Dir m (alter_entries name (fun c => Some (tree_mkdir p perm c)) entries).
Proof. destruct p; [congruence|reflexivity]. Qed.

(** Making a directory under an existing one, where the name is free:
    the directory is found, empty; setting its permission bits to what
    they are changes nothing; and removing it gives the tree back. *)
Lemma mkdir_then (parent : list string) :
  forall (t : node) (name : string) (perm m : FileMode)
         (entries : list (string * node)),
    well_formed t ->
    lookup parent t = Some (Dir m entries) ->
    find_entry name entries = None ->
    lookup (parent ++ [name]) (tree_mkdir (parent ++ [name]) perm t)
      = Some (Dir perm []) /\
    alter (fun c => Some (set_perm perm c)) (parent ++ [name])
          (tree_mkdir (parent ++ [name]) perm t)
      = Some (tree_mkdir (parent ++ [name]) perm t) /\
    alter (fun _ => None) (parent ++ [name]) (tree_mkdir (parent ++ [name]) perm t)
      = Some t.
Proof.
  induction parent as [|n parent IH]; intros t name perm m entries Hwf Ht Hfree.
  - simpl in Ht. injection Ht as ->. simpl.
    rewrite (find_entry_inserted _ _ _ Hfree). split; [reflexivity|]. split.
    + do 2 f_equal. apply alter_entries_id. intros x Hx.
      now rewrite (In_inserted _ _ _ _ Hfree Hx).
    + do 2 f_equal. now apply remove_inserted.
  - destruct t as [p0|m0 es0]; [discriminate|].
    simpl in Ht. destruct (find_entry n es0) as [c0|] eqn:Ec0; [|discriminate].
    inversion Hwf as [|? ? Hnd Hsub]; subst.
    pose proof (find_entry_In _ _ _ Ec0) as Hin0.
    destruct (IH c0 name perm m entries (Hsub _ _ Hin0) Ht Hfree) as (L & C & D).
    assert (Hne : parent ++ [name] <> []) by (now destruct parent).
    change ((n :: parent) ++ [name]) with (n :: (parent ++ [name])).
    rewrite (tree_mkdir_cons n _ perm m0 es0 Hne).
    assert (Hu : forall c, In (n, c) es0 -> c = c0)
      by (intros c Hc; now apply (entry_unique n es0 c c0 Hnd)).
    split; [|split].
    + simpl. rewrite find_entry_altered_total, Ec0. exact L.
    + simpl. do 2 f_equal. rewrite alter_entries_compose.
      apply alter_entries_ext. intros c Hc. now rewrite (Hu c Hc).
    + simpl. do 2 f_equal. rewrite alter_entries_compose.
      apply alter_entries_id. intros c Hc. now rewrite (Hu c Hc).
Qed.

End EntryFacts.

Section RoundTrip.

Variable fault : World -> syscall -> option nat.
Variable temp_name : World -> string.
Hypothesis quiet : no_fault fault.

(** The cleanup of a directory that was just made and is still empty. *)
Lemma cleanup_fresh (root : string) (v : World) (t : node)
    (parent : list string) (name : string) (m : FileMode)
    (entries : list (string * node)) :
  well_formed t ->
  resolve (cwd v) root = parent ++ [name] ->
  lookup parent t = Some (Dir m entries) ->
  find_entry name entries = None ->
  fs v = tree_mkdir (parent ++ [name]) 448 t ->
  exists v',
    cleanup fault root v = Ret tt v' /\
    fs v' = t /\ cwd v' = cwd v /\
    log v' = log v ++ [SysChmod root 448; SysRemoveAll root].
Proof.
  intros Hwf Hres Hpar Hfree Hfs.
  destruct (mkdir_then parent t name 448 m entries Hwf Hpar Hfree) as (L & C & D).
  unfold cleanup, bind, Walk. rewrite quiet, Hres, Hfs, L.
  rewrite walk_Dir, quiet. cbn [option_map info_of cleanupWalkFn fi_IsDir].
  unfold bind, os_Chmod, os_call. rewrite quiet. cbn [walk_entries ret].
  cbn [List.length app removeDirs nth]. unfold bind, os_RemoveAll, os_call.
  rewrite quiet. cbn [ret].
  eexists. split; [reflexivity|].
  cbn [fs cwd log with_fs issue]. rewrite Hres, Hfs.
  unfold tree_chmod, tree_remove, alter_root. rewrite C, D.
  split; [reflexivity|]. split; [reflexivity|]. now rewrite <- app_assoc.
Qed.

(** X17.  Creation followed by cleanup is a round trip.  In a file tree
    where names are unique within a directory, when [ioutil.TempDir]
    picks a free name in an existing directory and no call fails,
    [TempInitDir] makes an empty directory with permission 0700, and
    running the cleanup function right away gives back the file tree as
    it was, in the same working directory. *)
Theorem TempInitDir_cleanup_round_trip (w : World) (parent : list string)
    (name : string) (m : FileMode) (entries : list (string * node)) :
  well_formed (fs w) ->
  resolve (cwd w) (temp_name w) = parent ++ [name] ->
  lookup parent (fs w) = Some (Dir m entries) ->
  find_entry name entries = None ->
  exists teardown w1 w2,
    TempInitDir fault temp_name w = Ret (temp_name w, Some teardown, None) w1 /\
    lookup (resolve (cwd w1) (temp_name w)) (fs w1) = Some (Dir 448 []) /\
    teardown w1 = Ret tt w2 /\
    fs w2 = fs w /\ cwd w2 = cwd w /\
    log w2 = log w ++ [SysTempDir; SysChmod (temp_name w) 448;
                       SysRemoveAll (temp_name w)].
Proof.
  intros Hwf Hres Hpar Hfree.
  destruct (mkdir_then parent (fs w) name 448 m entries Hwf Hpar Hfree) as (L & _ & _).
  set (w1 := with_fs (tree_mkdir (resolve (cwd w) (temp_name w)) 448 (fs w))
                     (issue SysTempDir w)).
  destruct (cleanup_fresh (temp_name w) w1 (fs w) parent name m entries
              Hwf Hres Hpar Hfree) as (w2 & E & Hfs & Hcwd & Hlog).
  { subst w1. simpl. now rewrite Hres. }
  exists (cleanup fault (temp_name w)), w1, w2.
  split.
  { unfold TempInitDir, bind, ioutil_TempDir. now rewrite quiet. }
  split; [subst w1; simpl; now rewrite Hres|].
  split; [exact E|]. split; [exact Hfs|]. split; [exact Hcwd|].
  rewrite Hlog. subst w1. simpl. now rewrite <- app_assoc.
Qed.

(** X18.  The same round trip through [TempInitChdir], from an absolute
    working directory: the process is moved into the new directory, and
    the cleanup function brings it back to where it was and gives back
    the file tree as it was. *)
Theorem TempInitChdir_cleanup_round_trip (w : World) (parent : list string)
    (name : string) (m : FileMode) (entries : list (string * node)) :
  well_formed (fs w) ->
  is_abs (cwd w) = true ->
  resolve (cwd w) (temp_name w) = parent ++ [name] ->
  lookup parent (fs w) = Some (Dir m entries) ->
  find_entry name entries = None ->
  exists teardown w1 w2,
    TempInitChdir fault temp_name w = Ret (cwd w, Some teardown, None) w1 /\
    cwd w1 = absolute (cwd w) (temp_name w) /\
    teardown w1 = Ret tt w2 /\
    fs w2 = fs w /\ cwd w2 = cwd w /\
    log w2 = log w ++ [SysTempDir; SysGetwd; SysChdir (temp_name w);
                       SysChdir (cwd w); SysChmod (temp_name w) 448;
                       SysRemoveAll (temp_name w)].
Proof.
  intros Hwf Habs Hres Hpar Hfree.
  set (fs1 := tree_mkdir (resolve (cwd w) (temp_name w)) 448 (fs w)).
  set (v := {| fs := fs1; cwd := cwd w;
               log := log w ++ [SysTempDir; SysGetwd; SysChdir (temp_name w);
                                SysChdir (cwd w)] |}).
  destruct (cleanup_fresh (temp_name w) v (fs w) parent name m entries
              Hwf Hres Hpar Hfree) as (w2 & E & Hfs & Hcwd & Hlog).
  { subst v fs1. simpl. now rewrite Hres. }
  eexists _, _, w2. split.
  { unfold TempInitChdir, TempInitDir, bind, ioutil_TempDir, os_Getwd, os_Chdir,
      os_call, ret. repeat (rewrite quiet; cbn beta iota). reflexivity. }
  split; [reflexivity|].
  split.
  { unfold bind, call_cleanup, os_Chdir, os_call. rewrite quiet.
    match goal with |- cleanup _ _ ?x = _ => replace x with v end; [exact E|].
    subst v fs1. unfold with_cwd, with_fs, issue, absolute. simpl.
    rewrite Habs. f_equal. now rewrite <- !app_assoc. }
  split; [exact Hfs|]. split; [exact Hcwd|].
  rewrite Hlog. subst v. simpl. now rewrite <- app_assoc.
Qed.

End RoundTrip.

Lemma ex_world_well_formed : well_formed (fs ex_world).
Proof.
  assert (Hempty : forall perm, well_formed (Dir perm [])).
  { intros perm. apply wf_Dir; [constructor|]. intros name c []. }
  apply wf_Dir.
  - repeat constructor; simpl; intuition discriminate.
  - intros name c [[= <- <-]|[[= <- <-]|[]]]; [|apply Hempty].
    apply wf_Dir.
    + repeat constructor; simpl; tauto.
    + intros name' c' [[= <- <-]|[]]. apply Hempty.
Qed.

Lemma TempInitDir_cleanup_round_trip_witness :
  exists teardown w1 w2,
    TempInitDir ex_quiet ex_temp_name ex_world
      = Ret ("/tmp/fst1"%string, Some teardown, None) w1 /\
    lookup ["tmp"; "fst1"]%string (fs w1) = Some (Dir 448 []) /\
    teardown w1 = Ret tt w2 /\
    fs w2 = fs ex_world /\ cwd w2 = cwd ex_world /\
    log w2 = [SysTempDir; SysChmod "/tmp/fst1" 448; SysRemoveAll "/tmp/fst1"]%string.
Proof.
  exact (TempInitDir_cleanup_round_trip ex_quiet ex_temp_name ex_quiet_no_fault
           ex_world ["tmp"%string] "fst1" 511 [] ex_world_well_formed
           eq_refl eq_refl eq_refl).
Defined.

Lemma TempInitChdir_cleanup_round_trip_witness :
  exists teardown w1 w2,
    TempInitChdir ex_quiet ex_temp_name ex_world
      = Ret ("/home/u"%string, Some teardown, None) w1 /\
    cwd w1 = "/tmp/fst1"%string /\
    teardown w1 = Ret tt w2 /\
    fs w2 = fs ex_world /\ cwd w2 = "/home/u"%string /\
    log w2 = [SysTempDir; SysGetwd; SysChdir "/tmp/fst1"; SysChdir "/home/u";
              SysChmod "/tmp/fst1" 448; SysRemoveAll "/tmp/fst1"]%string.
Proof.
  exact (TempInitChdir_cleanup_round_trip ex_quiet ex_temp_name ex_quiet_no_fault
           ex_world ["tmp"%string] "fst1" 511 [] ex_world_well_formed
           eq_refl eq_refl eq_refl eq_refl).
Defined.
